(** * The map view of obsidian-map-view: versioned state updates and
      marker reconciliation

    A shallow embedding of [src/mapView.ts].  The view keeps one committed
    [MapState] object and one map of drawn markers; every change of either
    goes through [updateMapToState], an asynchronous method that queries the
    vault, awaits the marker builder and then commits unless a newer state
    has been committed meanwhile.

    Conventions of the embedding:
    - a JS [number] that only ever holds a version counter is a [nat]; zoom
      levels and coordinates are integers that the view stores and hands to
      the map widget without computing on them;
    - JS objects that are shared and mutated in place ([MapState] objects)
      live in a store indexed by references;
    - a JS [Map] is an insertion-ordered association list with unique keys;
    - an exception or a rejected promise is the [Throw] case of [Outcome];
    - the map widget is the chronological list of calls made to it. *)

From Stdlib Require Import ZArith Lia Ascii.
From stdpp Require Import base option list strings.

Open Scope string_scope.
Open Scope list_scope.
Open Scope Z_scope.
Open Scope nat_scope.

(** ** Exceptions *)

Inductive Outcome (A : Type) : Type :=
| Ok (a : A)
| Throw (e : string).
Arguments Ok {A} a.
Arguments Throw {A} e.

#[export] Instance Outcome_ret : MRet Outcome := fun A a => Ok a.
#[export] Instance Outcome_bind : MBind Outcome := fun A B f m =>
  match m with
  | Ok a => f a
  | Throw e => Throw e
  end.

(** ** JavaScript strings and arrays *)

Module Js.

(** [s.split(sep)] for a one-character separator. *)
Fixpoint split (sep : Ascii.ascii) (s : string) : list string :=
  match s with
  | EmptyString => [EmptyString]
  | String c rest =>
      if decide (c = sep) then EmptyString :: split sep rest
      else match split sep rest with
           | tok :: toks => String c tok :: toks
           | [] => [String c EmptyString]
           end
  end.

(** [a.join(sep)]. *)
Fixpoint join (sep : string) (a : list string) : string :=
  match a with
  | [] => EmptyString
  | [x] => x
  | x :: rest => x +:+ sep +:+ join sep rest
  end.

(** [a.indexOf(x)]: the first index holding [x], or [-1]. *)
Fixpoint indexOf_from (i : Z) (x : string) (a : list string) : Z :=
  match a with
  | [] => (-1)%Z
  | y :: rest => if decide (y = x) then i else indexOf_from (i + 1)%Z x rest
  end.
Definition indexOf (x : string) (a : list string) : Z := indexOf_from 0%Z x a.

(** [a.some(p)]. *)
Definition some {A} (p : A -> bool) (a : list A) : bool := existsb p a.

(** [a.filter(t => t.length > 0)]. *)
Definition nonempty (t : string) : bool := 0 <? String.length t.

End Js.

(** ** The host application: vault and tag-metadata cache *)

Module Obsidian.

Record TFile := { path : string; name : string }.

Record TagCache := { tag : string }.

(** [CachedMetadata.tags] is optional. *)
Record CachedMetadata := { tags : option (list TagCache) }.

(** [app.vault.getFiles()] and [app.metadataCache.getFileCache(file)];
    the latter answers [null] for a file it has no entry for.  Both are
    calls into the host and may throw. *)
Record App := {
  getFiles : Outcome (list TFile);
  getFileCache : TFile -> Outcome (option CachedMetadata)
}.

(** A host whose calls answer without throwing. *)
Definition host (files : list TFile)
    (cache : TFile -> option CachedMetadata) : App :=
  {| getFiles := Ok files; getFileCache := fun f => Ok (cache f) |}.

#[export] Instance TFile_eq_dec : EqDecision TFile.
Proof. solve_decision. Defined.

End Obsidian.
Import Obsidian.

(** ** Query engine: [getFileListByQuery] *)

(** The body of the loop over [allFiles]: the value of [match] for one
    file. *)
Definition fileMatches (app : App) (tags : list string) (file : TFile)
    : Outcome bool :=
  if 0 <? length tags then
    fileCache ← getFileCache app file;
    mret (match fileCache with
          | Some fc =>
              match Obsidian.tags fc with
              | Some fileTags =>
                  Js.some (fun tagInFile =>
                             (-1 <? Js.indexOf (tag tagInFile) tags)%Z)
                          fileTags
              | None => false
              end
          | None => false
          end)
  else mret true.

Fixpoint pushMatching (app : App) (tags : list string)
    (allFiles results : list TFile) : Outcome (list TFile) :=
  match allFiles with
  | [] => mret results
  | file :: rest =>
      matches ← fileMatches app tags file;
      pushMatching app tags rest
        (if matches : bool then results ++ [file] else results)
  end.

Definition getFileListByQuery (app : App) (tags : list string)
    : Outcome (list TFile) :=
  allFiles ← getFiles app;
  pushMatching app tags allFiles [].

(** The tags a file owns according to the cache. *)
Definition ownTags (cache : TFile -> option CachedMetadata) (file : TFile)
    : list string :=
  match cache file with
  | Some fc =>
      match Obsidian.tags fc with
      | Some fileTags => tag <$> fileTags
      | None => []
      end
  | None => []
  end.

(** OR-match, as a decision procedure. *)
Definition ownsOneOf (cache : TFile -> option CachedMetadata)
    (requested : list string) (file : TFile) : bool :=
  existsb (fun own => bool_decide (own ∈ requested)) (ownTags cache file).

(** ** The map widget *)

Module Leaflet.

(** Coordinates in millionths of a degree. *)
Record LatLng := { lat : Z; lng : Z }.

(** [leaflet.Icon]: only handed through to the widget. *)
Definition Icon := string.

(** A [leaflet.Marker] object, known by its identity: the [n]-th marker
    object created has identity [n]. *)
Definition Marker := nat.

(** The calls the view makes that change what the widget shows. *)
Inductive Call :=
| AddMarker (m : Marker) (location : LatLng) (icon : option Icon)
    (tooltip : string)
| RemoveMarker (m : Marker)
| SetView (center : LatLng) (zoom : Z)
| FitBounds (locations : list LatLng).

(** [leaflet.Map]: the calls received so far, oldest first, and the number
    of marker objects created so far. *)
Record Map := { calls : list Call; created : nat }.

(** What the viewport was last set to. *)
Inductive Viewport :=
| At (center : LatLng) (zoom : Z)
| Bounding (locations : list LatLng).

(** [createMap] opens the widget at this view. *)
Definition initialViewport : Viewport :=
  At {| lat := 40731253; lng := -73996139 |} 13.

Definition moveViewport (vp : Viewport) (c : Call) : Viewport :=
  match c with
  | SetView center zoom => At center zoom
  | FitBounds locations => Bounding locations
  | _ => vp
  end.

Definition viewport (map : Map) : Viewport :=
  foldl moveViewport initialViewport (calls map).

Definition isFitBounds (c : Call) : bool :=
  match c with FitBounds _ => true | _ => false end.

Definition isRemoveOf (m : Marker) (c : Call) : bool :=
  match c with RemoveMarker m' => bool_decide (m' = m) | _ => false end.

Definition isAddOf (m : Marker) (c : Call) : bool :=
  match c with AddMarker m' _ _ _ => bool_decide (m' = m) | _ => false end.

Definition received (c : Call) (map : Map) : Map :=
  {| calls := calls map ++ [c]; created := created map |}.

End Leaflet.
Import Leaflet.

(** ** JS [Map] with string keys *)

Module JsMap.
Section JsMap.
Context {V : Type}.

(** Entries in insertion order; a key occurs at most once. *)
Definition t := list (string * V).

Definition keys (m : t) : list string := m.*1.
Definition values (m : t) : list V := m.*2.
Definition size (m : t) : nat := length m.

Fixpoint get (k : string) (m : t) : option V :=
  match m with
  | [] => None
  | (k', v) :: rest => if decide (k' = k) then Some v else get k rest
  end.

Definition has (k : string) (m : t) : bool := bool_decide (k ∈ keys m).

(** [m.set(k, v)]: a present key keeps its place, a new key goes last. *)
Fixpoint set (k : string) (v : V) (m : t) : t :=
  match m with
  | [] => [(k, v)]
  | (k', v') :: rest =>
      if decide (k' = k) then (k', v) :: rest else (k', v') :: set k v rest
  end.

Fixpoint delete (k : string) (m : t) : t :=
  match m with
  | [] => []
  | (k', v') :: rest =>
      if decide (k' = k) then delete k rest else (k', v') :: delete k rest
  end.

Definition wf (m : t) : Prop := NoDup (keys m).

End JsMap.
Arguments t : clear implicits.
End JsMap.

(** ** Markers *)

(** Modelled from the spec: the class [FileMarker] of [src/markers], which is
    not part of the sources at hand.  The fields are the spec's marker
    descriptor under the names [mapView.ts] uses for them: [id] (stable
    identity), [location], [file] (owning document), [fileLocation] (optional
    offset in the document), [icon] (optional) and [mapMarker] (the rendered
    handle, present only once drawn). *)
Record FileMarker := {
  id : string;
  location : LatLng;
  file : TFile;
  fileLocation : option nat;
  icon : option Icon;
  mapMarker : option Marker
}.

Definition withMapMarker (h : Marker) (marker : FileMarker) : FileMarker :=
  {| id := id marker; location := location marker; file := file marker;
     fileLocation := fileLocation marker; icon := icon marker;
     mapMarker := Some h |}.

(** [MarkersMap = Map<string, FileMarker>]. *)
Abbreviation MarkersMap := (JsMap.t FileMarker).

(** ** Map state, settings and the view object *)

Record MapState := {
  mapZoom : Z;
  mapCenter : LatLng;
  tags : list string;
  version : nat
}.

Definition withTags (ts : list string) (s : MapState) : MapState :=
  {| mapZoom := mapZoom s; mapCenter := mapCenter s; tags := ts;
     version := version s |}.
Definition withVersion (n : nat) (s : MapState) : MapState :=
  {| mapZoom := mapZoom s; mapCenter := mapCenter s; tags := tags s;
     version := n |}.
Definition withMapZoom (z : Z) (s : MapState) : MapState :=
  {| mapZoom := z; mapCenter := mapCenter s; tags := tags s;
     version := version s |}.
Definition withMapCenter (c : LatLng) (s : MapState) : MapState :=
  {| mapZoom := mapZoom s; mapCenter := c; tags := tags s;
     version := version s |}.

(** The fields of [PluginSettings] that the view reads; the three defaults
    may be unset. *)
Record PluginSettings := {
  defaultZoom : option Z;
  defaultMapCenter : option LatLng;
  defaultTags : option (list string);
  zoomOnGoFromNote : Z;
  autoZoom : bool
}.

(** The constants of [src/consts] that the view falls back to. *)
Record Consts := {
  DEFAULT_ZOOM : Z;
  DEFAULT_CENTER : LatLng;
  DEFAULT_TAGS : list string
}.

(** [settings.defaultZoom || consts.DEFAULT_ZOOM]: [0] is falsy. *)
Definition zoomOr (z : option Z) (fallback : Z) : Z :=
  match z with
  | Some z' => if decide (z' = 0%Z) then fallback else z'
  | None => fallback
  end.

(** [!settings.defaultZoom]. *)
Definition zoomUnset (z : option Z) : bool :=
  match z with
  | Some z' => bool_decide (z' = 0%Z)
  | None => true
  end.

(** A reference to a [MapState] object. *)
Definition Ref := nat.

(** The [display] member of the view. *)
Record Display := {
  map : Map;
  markers : MarkersMap;
  tagsBox : string
}.

(** The view object together with the [MapState] objects it can reach:
    [objects] holds the contents of every allocated object and [allocated]
    counts them.  [state] and [defaultState] are references, as in the
    source, so they can name the same object. *)
Record MapView := {
  app : App;
  settings : PluginSettings;
  consts : Consts;
  objects : Ref -> MapState;
  allocated : nat;
  state : Ref;
  defaultState : Ref;
  display : Display
}.

Definition withObjects (o : Ref -> MapState) (n : nat) (v : MapView)
    : MapView :=
  {| app := app v; settings := settings v; consts := consts v;
     objects := o; allocated := n; state := state v;
     defaultState := defaultState v; display := display v |}.
Definition withState (r : Ref) (v : MapView) : MapView :=
  {| app := app v; settings := settings v; consts := consts v;
     objects := objects v; allocated := allocated v; state := r;
     defaultState := defaultState v; display := display v |}.
Definition withDisplay (d : Display) (v : MapView) : MapView :=
  {| app := app v; settings := settings v; consts := consts v;
     objects := objects v; allocated := allocated v; state := state v;
     defaultState := defaultState v; display := d |}.
Definition withMap (m : Map) (d : Display) : Display :=
  {| map := m; markers := markers d; tagsBox := tagsBox d |}.
Definition withMarkers (ms : MarkersMap) (d : Display) : Display :=
  {| map := map d; markers := ms; tagsBox := tagsBox d |}.
Definition withTagsBox (s : string) (d : Display) : Display :=
  {| map := map d; markers := markers d; tagsBox := s |}.

(** [this.state], dereferenced. *)
Definition committed (v : MapView) : MapState := objects v (state v).

(** Writing a field of an existing object. *)
Definition mutate (r : Ref) (f : MapState -> MapState) (v : MapView)
    : MapView :=
  withObjects (fun r' => if decide (r' = r) then f (objects v r')
                         else objects v r')
              (allocated v) v.

(** An object literal: a new object, and its reference. *)
Definition allocate (s : MapState) (v : MapView) : Ref * MapView :=
  (allocated v,
   withObjects (fun r' => if decide (r' = allocated v) then s
                          else objects v r')
               (S (allocated v)) v).

(** ** Methods of the view: a state monad with exceptions

    A method takes the view to an outcome and the view it leaves behind; what
    a method wrote before it threw stays written. *)

Definition Act (A : Type) : Type := MapView -> Outcome A * MapView.

#[export] Instance Act_ret : MRet Act := fun A a v => (Ok a, v).
#[export] Instance Act_bind : MBind Act := fun A B f m v =>
  match m v with
  | (Ok a, v') => f a v'
  | (Throw e, v') => (Throw e, v')
  end.

Definition reading {A} (f : MapView -> A) : Act A := fun v => (Ok (f v), v).
Definition writing (f : MapView -> MapView) : Act unit :=
  fun v => (Ok tt, f v).
Definition throwing {A} (e : string) : Act A := fun v => (Throw e, v).
(** [await p] for a promise that settles with [p]. *)
Definition await {A} (p : Outcome A) : Act A := fun v => (p, v).

Definition onMap (c : Call) : Act unit :=
  writing (fun v => withDisplay (withMap (received c (map (display v)))
                                         (display v)) v).

(** ** Marker reconciler: [updateMapMarkers] *)

(** [leaflet.marker(location, {icon}).addTo(map).bindTooltip(name)]: a new
    marker object, put on the map. *)
Definition createMarker (marker : FileMarker) : Act Marker :=
  h ← reading (fun v => created (map (display v)));
  writing (fun v =>
    withDisplay
      (withMap {| calls := calls (map (display v)) ++
                    [AddMarker h (location marker) (icon marker)
                       (name (file marker))];
                  created := S h |}
               (display v)) v);;
  mret h.

(** One round of the first loop.  [markers.has(id)] followed by
    [markers.get(id)] is the match on [JsMap.get]. *)
Definition keepOrCreate (marker : FileMarker) (newMarkersMap : MarkersMap)
    : Act MarkersMap :=
  drawn ← reading (fun v => markers (display v));
  match JsMap.get (id marker) drawn with
  | Some existing =>
      writing (fun v =>
        withDisplay (withMarkers (JsMap.delete (id marker)
                                    (markers (display v)))
                                 (display v)) v);;
      mret (JsMap.set (id marker) existing newMarkersMap)
  | None =>
      h ← createMarker marker;
      mret (JsMap.set (id marker) (withMapMarker h marker) newMarkersMap)
  end.

Fixpoint forEachNew (newMarkers : list FileMarker)
    (newMarkersMap : MarkersMap) : Act MarkersMap :=
  match newMarkers with
  | [] => mret newMarkersMap
  | marker :: rest =>
      newMarkersMap' ← keepOrCreate marker newMarkersMap;
      forEachNew rest newMarkersMap'
  end.

(** The second loop: [value.mapMarker.removeFrom(map)] for every entry left;
    calling a method of an absent [mapMarker] throws. *)
Fixpoint removeEach (entries : list (string * FileMarker)) : Act unit :=
  match entries with
  | [] => mret tt
  | (_, value) :: rest =>
      match mapMarker value with
      | Some h => onMap (RemoveMarker h);; removeEach rest
      | None => throwing "TypeError: value.mapMarker is undefined"
      end
  end.

Definition updateMapMarkers (newMarkers : list FileMarker) : Act unit :=
  newMarkersMap ← forEachNew newMarkers [];
  left ← reading (fun v => markers (display v));
  removeEach left;;
  writing (fun v => withDisplay (withMarkers newMarkersMap (display v)) v).

(** ** [autoFitMapToMarkers] *)

Definition autoFitMapToMarkers : Act unit :=
  drawn ← reading (fun v => markers (display v));
  if 0 <? JsMap.size drawn then
    onMap (FitBounds (location <$> JsMap.values drawn))
  else mret tt.

(** ** State machine: [updateMapToState]

    The method runs up to its [await] when it is called and from the [await]
    on when the marker builder settles; other calls and handlers can run in
    between.  [buildMarkers] belongs to [src/markers]: only what its promise
    settles with enters here. *)

(** A call suspended at its [await]. *)
Record Pending := {
  candidate : Ref;
  autoFit : bool;
  files : list TFile
}.

(** Up to the [await]: the query for the candidate's tags. *)
Definition updateMapToState_query (st : Ref) : Act (list TFile) :=
  queried ← reading (fun v => getFileListByQuery (app v) (tags (objects v st)));
  await queried.

(** From the version check on. *)
Definition updateMapToState_commit (st : Ref) (fit : bool)
    (newMarkers : list FileMarker) : Act unit :=
  old ← reading (fun v => version (objects v st) <? version (committed v));
  if old : bool then mret tt
  else
    writing (withState st);;
    updateMapMarkers newMarkers;;
    shown ← reading (fun v => Js.join "," (List.filter Js.nonempty
                                             (tags (committed v))));
    writing (fun v => withDisplay (withTagsBox shown (display v)) v);;
    view ← reading (fun v => SetView (mapCenter (committed v))
                                     (mapZoom (committed v)));
    onMap view;;
    if fit then autoFitMapToMarkers else mret tt.

(** From the [await] on, given what the builder's promise settled with. *)
Definition updateMapToState_resume (p : Pending)
    (built : Outcome (list FileMarker)) : Act unit :=
  newMarkers ← await built;
  updateMapToState_commit (candidate p) (autoFit p) newMarkers.

(** The whole method when nothing else runs during the [await];
    [buildMarkers files] is what the builder settles with for [files]. *)
Definition updateMapToState
    (buildMarkers : list TFile -> Outcome (list FileMarker))
    (st : Ref) (fit : bool) : Act unit :=
  files ← updateMapToState_query st;
  newMarkers ← await (buildMarkers files);
  updateMapToState_commit st fit newMarkers.

(** ** The view and its suspended calls *)

Record Sys := {
  view : MapView;
  inflight : list Pending
}.

Definition onView (f : MapView -> MapView) (s : Sys) : Sys :=
  {| view := f (view s); inflight := inflight s |}.

(** Calling [updateMapToState(st, fit)]: it suspends at the [await], or its
    promise is rejected by a throwing query. *)
Definition call (st : Ref) (fit : bool) (s : Sys) : Sys :=
  match updateMapToState_query st (view s) with
  | (Ok queried, v) =>
      {| view := v;
         inflight := inflight s ++
           [{| candidate := st; autoFit := fit; files := queried |}] |}
  | (Throw _, v) => {| view := v; inflight := inflight s |}
  end.

(** The builder of the [i]-th suspended call settles. *)
Definition settle (i : nat) (built : Outcome (list FileMarker)) (s : Sys)
    : Sys :=
  match inflight s !! i with
  | Some p =>
      {| view := (updateMapToState_resume p built (view s)).2;
         inflight := take i (inflight s) ++ drop (S i) (inflight s) |}
  | None => s
  end.

(** ** Constructor and handlers *)

Definition configuredDefault (settings : PluginSettings) (consts : Consts)
    (n : nat) : MapState :=
  {| mapZoom := zoomOr (defaultZoom settings) (DEFAULT_ZOOM consts);
     mapCenter := default (DEFAULT_CENTER consts) (defaultMapCenter settings);
     tags := default (DEFAULT_TAGS consts) (defaultTags settings);
     version := n |}.

(** The view once constructed and opened: [state] and [defaultState] name
    the same object, nothing is drawn. *)
Definition opened (app : App) (settings : PluginSettings) (consts : Consts)
    : Sys :=
  {| view :=
       {| app := app; settings := settings; consts := consts;
          objects := fun _ => configuredDefault settings consts 0;
          allocated := 1; state := 0; defaultState := 0;
          display := {| map := {| calls := []; created := 0 |};
                        markers := []; tagsBox := "" |} |};
     inflight := [] |}.

(** [map.whenReady] callback. *)
Definition whenReady (s : Sys) : Sys :=
  call (defaultState (view s))
       (zoomUnset (defaultZoom (settings (view s)))) s.

(** [setState(state, result)]; the host's object is an object of its own. *)
Definition setState (given : option MapState) (s : Sys) : Sys :=
  match given with
  | Some st =>
      let (r, v) := allocate (withVersion 100 st) (view s) in
      call r false {| view := v; inflight := inflight s |}
  | None => s
  end.

Definition getState (s : Sys) : MapState := committed (view s).

Definition zoomToLocation (location : LatLng) (s : Sys) : Sys :=
  let newState :=
    {| mapCenter := location;
       mapZoom := zoomOnGoFromNote (settings (view s));
       tags := tags (committed (view s));
       version := version (committed (view s)) + 1 |} in
  let (r, v) := allocate newState (view s) in
  call r false {| view := v; inflight := inflight s |}.

(** [tagsBox.onChange] handler. *)
Definition tagsBox_onChange (text : string) (s : Sys) : Sys :=
  let s' := onView (fun v =>
              mutate (state v)
                (withTags (List.filter Js.nonempty (Js.split ","%char text))) v) s in
  call (state (view s')) (autoZoom (settings (view s'))) s'.

(** The Reset button. *)
Definition goDefault_onClick (s : Sys) : Sys :=
  let newState :=
    configuredDefault (settings (view s)) (consts (view s))
      (version (committed (view s)) + 1) in
  let (r, v) := allocate newState (view s) in
  call r false {| view := v; inflight := inflight s |}.

(** The Fit button. *)
Definition fitButton_onClick (s : Sys) : Sys :=
  onView (fun v => (autoFitMapToMarkers v).2) s.

(** The widget's [zoomend] and [moveend] events. *)
Definition map_onZoomend (zoom : Z) (s : Sys) : Sys :=
  onView (fun v => mutate (state v) (withMapZoom zoom) v) s.
Definition map_onMoveend (center : LatLng) (s : Sys) : Sys :=
  onView (fun v => mutate (state v) (withMapCenter center) v) s.

(** [updateMapToState] is a public method: a call from elsewhere, with a
    state object of the caller's making. *)
Definition updateMapToState_from (given : MapState) (fit : bool) (s : Sys)
    : Sys :=
  let (r, v) := allocate given (view s) in
  call r fit {| view := v; inflight := inflight s |}.

(** Everything that can happen to an opened view. *)
Inductive Event :=
| Update (given : MapState) (fit : bool)
| WhenReady
| SetState (given : option MapState)
| ZoomToLocation (location : LatLng)
| TagsBoxChange (text : string)
| GoDefault
| Fit
| Zoomend (zoom : Z)
| Moveend (center : LatLng)
| Settle (i : nat) (built : Outcome (list FileMarker)).

Definition step (s : Sys) (e : Event) : Sys :=
  match e with
  | Update given fit => updateMapToState_from given fit s
  | WhenReady => whenReady s
  | SetState given => setState given s
  | ZoomToLocation location => zoomToLocation location s
  | TagsBoxChange text => tagsBox_onChange text s
  | GoDefault => goDefault_onClick s
  | Fit => fitButton_onClick s
  | Zoomend zoom => map_onZoomend zoom s
  | Moveend center => map_onMoveend center s
  | Settle i built => settle i built s
  end.

Definition run (s : Sys) (es : list Event) : Sys := foldl step s es.

(** ** Invariant of the drawn markers *)

(** The marker objects of the entries of a markers map. *)
Definition drawnHandles (m : MarkersMap) : list Marker :=
  omap mapMarker (JsMap.values m).

(** What holds of [display.markers] between two calls: keys are unique,
    every entry carries its marker object, no two entries share one, and
    every such object has been created. *)
Definition drawn_ok (d : Display) : Prop :=
  JsMap.wf (markers d)
  /\ Forall (fun e => is_Some (mapMarker e)) (JsMap.values (markers d))
  /\ NoDup (drawnHandles (markers d))
  /\ Forall (fun h => h < created (map d)) (drawnHandles (markers d)).

#[export] Instance drawn_ok_dec (d : Display) : Decision (drawn_ok d).
Proof. unfold drawn_ok, JsMap.wf. apply _. Defined.

(** The calls a method added to the widget's record. *)
Definition callsSince (before after : MapView) : list Call :=
  drop (length (calls (map (display before)))) (calls (map (display after))).

Definition count (p : Call -> bool) (cs : list Call) : nat :=
  length (List.filter p cs).

Definition ids (newMarkers : list FileMarker) : list string :=
  id <$> newMarkers.

(** The entries of [drawn] whose id is not among the new markers. *)
Definition unclaimed (newMarkers : list FileMarker) (drawn : MarkersMap)
    : MarkersMap :=
  filter (fun kv => kv.1 ∉ ids newMarkers) (drawn : list (string * FileMarker)).

(** The markers created in a pass, each with the object made for it. *)
Definition addCalls (news : list (Marker * FileMarker)) : list Call :=
  (fun hm => AddMarker hm.1 (location hm.2) (icon hm.2) (name (file hm.2)))
    <$> news.
Definition stamped (news : list (Marker * FileMarker)) : list FileMarker :=
  (fun hm => withMapMarker hm.1 hm.2) <$> news.

(** The view after the first loop of [updateMapMarkers]: [news] have been
    created and put on the map and [left] is what remains of
    [display.markers]. *)
Definition afterFirstLoop (v : MapView) (news : list (Marker * FileMarker))
    (left : MarkersMap) : MapView :=
  withDisplay
    {| map := {| calls := calls (map (display v)) ++ addCalls news;
                 created := created (map (display v)) + length news |};
       markers := left;
       tagsBox := tagsBox (display v) |} v.

(** The view after a whole pass of [updateMapMarkers]: [news] created,
    the marker objects [removed] taken off the map, [result] drawn. *)
Definition afterPass (v : MapView) (news : list (Marker * FileMarker))
    (removed : list Marker) (result : MarkersMap) : MapView :=
  withDisplay
    {| map := {| calls := calls (map (display v)) ++ addCalls news ++
                            (RemoveMarker <$> removed);
                 created := created (map (display v)) + length news |};
       markers := result;
       tagsBox := tagsBox (display v) |} v.

(** ** Suspended calls settling one after another *)

(** A suspended call together with the markers its builder resolves to. *)
Definition Completion : Type := Pending * list FileMarker.

Definition complete (v : MapView) (c : Completion) : MapView :=
  (updateMapToState_resume c.1 (Ok c.2) v).2.

(** The builders settle in the order of the list. *)
Definition completes (v : MapView) (order : list Completion) : MapView :=
  foldl complete v order.

(** The version a suspended call will be checked with. *)
Definition versionOf (v : MapView) (c : Completion) : nat :=
  version (objects v (candidate c.1)).

(** A method that writes nothing but [display]. *)
Definition displayOnly {A} (m : Act A) : Prop :=
  forall v, exists d, (m v).2 = withDisplay d v.

(** References in use name allocated objects. *)
Definition refs_ok (s : Sys) : Prop :=
  state (view s) < allocated (view s)
  /\ defaultState (view s) < allocated (view s)
  /\ Forall (fun p => candidate p < allocated (view s)) (inflight s).

(** The view after a call has committed the candidate [st]: the pass over
    the markers, the tag box, the viewport and, when asked for and something
    is drawn, the fit. *)
Definition afterCommit (v : MapView) (st : Ref) (fit : bool)
    (news : list (Marker * FileMarker)) (removed : list Marker)
    (result : MarkersMap) : MapView :=
  withDisplay
    {| map :=
         {| calls :=
              calls (map (display v)) ++ addCalls news ++
              (RemoveMarker <$> removed) ++
              [SetView (mapCenter (objects v st)) (mapZoom (objects v st))] ++
              (if fit && (0 <? JsMap.size result)
               then [FitBounds (location <$> JsMap.values result)]
               else []);
            created := created (map (display v)) + length news |};
       markers := result;
       tagsBox := Js.join "," (List.filter Js.nonempty (tags (objects v st)))
    |} (withState st v).

(** ** Bookkeeping of calls along a run *)




(** What holds of an opened view between any two events. *)
Definition view_ok (s : Sys) : Prop :=
  refs_ok s /\ drawn_ok (display (view s)).

(** ** A small vault, for concrete runs *)

Module Vault.

Definition noteA : TFile := {| path := "a.md"; name := "a.md" |}.
Definition noteB : TFile := {| path := "b.md"; name := "b.md" |}.
(** A note the tag cache has no entry for, and one whose entry lists no
    tags. *)
Definition noteUnindexed : TFile := {| path := "u.md"; name := "u.md" |}.
Definition noteUntagged : TFile := {| path := "t.md"; name := "t.md" |}.

Definition cache (f : TFile) : option CachedMetadata :=
  if decide (f = noteA) then
    Some {| Obsidian.tags := Some [{| tag := "#x" |}] |}
  else if decide (f = noteB) then
    Some {| Obsidian.tags := Some [{| tag := "#y" |}] |}
  else if decide (f = noteUntagged) then
    Some {| Obsidian.tags := Some [] |}
  else None.

Definition allNotes : list TFile :=
  [noteA; noteB; noteUnindexed; noteUntagged].

Definition app : App := host allNotes cache.

Definition settings : PluginSettings :=
  {| defaultZoom := None; defaultMapCenter := None; defaultTags := None;
     zoomOnGoFromNote := 15; autoZoom := true |}.

Definition consts : Consts :=
  {| DEFAULT_ZOOM := 1;
     DEFAULT_CENTER := {| lat := 40731253; lng := -73996139 |};
     DEFAULT_TAGS := [] |}.

Definition paris : LatLng := {| lat := 48856600; lng := 2352200 |}.
Definition rome : LatLng := {| lat := 41902800; lng := 12496400 |}.

Definition markerA : FileMarker :=
  {| id := "A"; location := paris; file := noteA; fileLocation := None;
     icon := None; mapMarker := None |}.
Definition markerB : FileMarker :=
  {| id := "B"; location := rome; file := noteB; fileLocation := Some 12;
     icon := None; mapMarker := None |}.
(** The marker of [noteA] again, computed afresh with another location. *)
Definition markerA_moved : FileMarker :=
  {| id := "A"; location := rome; file := noteA; fileLocation := None;
     icon := Some "pin"; mapMarker := None |}.

(** The view just opened. *)
Definition start : Sys := opened app settings consts.

(** Both markers drawn: the initial call has committed. *)
Definition bothDrawn : Sys :=
  run start [WhenReady; Settle 0 (Ok [markerA; markerB])].

(** A state as the host hands it to [setState]. *)
Definition saved : MapState :=
  {| mapZoom := 9; mapCenter := paris; tags := ["#x"]; version := 3 |}.
Definition savedLater : MapState :=
  {| mapZoom := 5; mapCenter := rome; tags := ["#y"]; version := 4 |}.

(** A restore has committed, and then a zoom to a location. *)
Definition restoredThenZoomed : Sys :=
  run start [SetState (Some saved); Settle 0 (Ok [markerA]);
             ZoomToLocation rome; Settle 0 (Ok [markerA])].

(** Two calls were made for the same committed state; the second one
    settled, then a third call was made and settled: the first one is
    still suspended. *)
Definition straggler : Sys :=
  run start [ZoomToLocation paris; GoDefault; Settle 1 (Ok []);
             ZoomToLocation rome; Settle 1 (Ok [])].




(** A marker builder for this vault, and the settling of the [i]-th
    suspended call with what it builds from the files queried. *)
Definition buildMarkers (queried : list TFile) : list FileMarker :=
  omap (fun f => if decide (f = noteA) then Some markerA
                 else if decide (f = noteB) then Some markerB
                 else None) queried.
Definition built (i : nat) (s : Sys) : Sys :=
  match inflight s !! i with
  | Some p => settle i (Ok (buildMarkers (files p))) s
  | None => s
  end.

(** The filter [#x] requested with version 1 and, before it resolves, no
    filter requested with version 2. *)
Definition twoFilters : Sys :=
  run start [Update {| mapZoom := 7; mapCenter := paris; tags := ["#x"];
                       version := 1 |} false;
             Update {| mapZoom := 7; mapCenter := paris; tags := [];
                       version := 2 |} false].

(** The builder of the initial call fails. *)
Definition failingBuilder (queried : list TFile)
    : Outcome (list FileMarker) :=
  Throw "buildMarkers failed".

End Vault.



(** ** The tag box text *)

(** The tags read off the text of the tag box ([tagsBox.onChange]) and the
    text shown for a list of tags ([updateMapToState]). *)
Definition parseTags (text : string) : list string :=
  List.filter Js.nonempty (Js.split ","%char text).
Definition showTags (ts : list string) : string :=
  Js.join "," (List.filter Js.nonempty ts).

(** A string that holds no comma. *)
Fixpoint commaFree (t : string) : bool :=
  match t with
  | EmptyString => true
  | String c rest => if decide (c = ","%char) then false else commaFree rest
  end.

(** A tag the tag box can hold as one token. *)
Definition plainTag (t : string) : bool := Js.nonempty t && commaFree t.

(** ** Accounting of a pass *)

(** The new marker's id is not drawn. *)
Definition absentIn (drawn : MarkersMap) (marker : FileMarker) : bool :=
  match JsMap.get (id marker) drawn with
  | Some _ => false
  | None => true
  end.

Definition isAdd (c : Call) : bool :=
  match c with AddMarker _ _ _ _ => true | _ => false end.
Definition isRemove (c : Call) : bool :=
  match c with RemoveMarker _ => true | _ => false end.

(** * Properties *)

(** ** JavaScript helpers *)

Lemma indexOf_from_found (x : string) (a : list string) (i : Z) :
  (0 <= i)%Z -> (-1 <? Js.indexOf_from i x a)%Z = bool_decide (x ∈ a).
Proof.
  revert i. induction a as [|y a IH]; intros i Hi; cbn [Js.indexOf_from].
  - rewrite bool_decide_eq_false_2 by apply not_elem_of_nil. reflexivity.
  - destruct (decide (y = x)) as [->|Hne].
    + rewrite bool_decide_eq_true_2 by left. apply Z.ltb_lt. lia.
    + rewrite IH by lia. apply bool_decide_ext. rewrite elem_of_cons.
      intuition congruence.
Qed.

Lemma indexOf_found (x : string) (a : list string) :
  (-1 <? Js.indexOf x a)%Z = bool_decide (x ∈ a).
Proof. apply indexOf_from_found. lia. Qed.

(** ** Query engine *)

Section Query.
Variable files : list TFile.
Variable cache : TFile -> option CachedMetadata.

Lemma ownsOneOf_spec (requested : list string) (f : TFile) :
  ownsOneOf cache requested f = true <->
  exists own, own ∈ ownTags cache f /\ own ∈ requested.
Proof.
  unfold ownsOneOf. rewrite existsb_exists. split.
  - intros (own & Hin & Hdec). exists own. split.
    + by apply list_elem_of_In.
    + by apply bool_decide_eq_true in Hdec.
  - intros (own & Hin & Hreq). exists own. split.
    + by apply list_elem_of_In.
    + by apply bool_decide_eq_true.
Qed.

Lemma fileMatches_empty (f : TFile) :
  fileMatches (host files cache) [] f = Ok true.
Proof. reflexivity. Qed.

Lemma fileMatches_nonempty (t : string) (tags : list string) (f : TFile) :
  fileMatches (host files cache) (t :: tags) f =
  Ok (ownsOneOf cache (t :: tags) f).
Proof.
  unfold fileMatches, ownsOneOf, ownTags. cbn [length Nat.ltb Nat.leb].
  cbn [host getFileCache mbind Outcome_bind mret Outcome_ret].
  destruct (cache f) as [[[fileTags|]]|]; try reflexivity.
  f_equal. unfold Js.some. cbn [Obsidian.tags].
  induction fileTags as [|ft fileTags IH]; [reflexivity|].
  cbn [existsb fmap list_fmap]. rewrite indexOf_found. f_equal. exact IH.
Qed.

Lemma pushMatching_empty (allFiles results : list TFile) :
  pushMatching (host files cache) [] allFiles results =
  Ok (results ++ allFiles).
Proof.
  revert results. induction allFiles as [|f rest IH]; intros results.
  - cbn. by rewrite app_nil_r.
  - cbn [pushMatching]. rewrite fileMatches_empty.
    cbn [mbind Outcome_bind]. rewrite IH. by rewrite <- app_assoc.
Qed.

Lemma pushMatching_nonempty (t : string) (tags : list string)
    (allFiles results : list TFile) :
  pushMatching (host files cache) (t :: tags) allFiles results =
  Ok (results ++ List.filter (ownsOneOf cache (t :: tags)) allFiles).
Proof.
  revert results. induction allFiles as [|f rest IH]; intros results.
  - cbn. by rewrite app_nil_r.
  - cbn [pushMatching]. rewrite fileMatches_nonempty.
    cbn [mbind Outcome_bind List.filter].
    destruct (ownsOneOf cache (t :: tags) f); rewrite IH.
    + by rewrite <- app_assoc.
    + reflexivity.
Qed.

Lemma getFileListByQuery_all :
  getFileListByQuery (host files cache) [] = Ok files.
Proof.
  unfold getFileListByQuery. cbn [host getFiles mbind Outcome_bind].
  apply pushMatching_empty.
Qed.

Lemma getFileListByQuery_filtered (t : string) (tags : list string) :
  getFileListByQuery (host files cache) (t :: tags) =
  Ok (List.filter (ownsOneOf cache (t :: tags)) files).
Proof.
  unfold getFileListByQuery. cbn [host getFiles mbind Outcome_bind].
  apply pushMatching_nonempty.
Qed.

Lemma ownsOneOf_no_tags (requested : list string) (f : TFile) :
  ownTags cache f = [] -> ownsOneOf cache requested f = false.
Proof. unfold ownsOneOf. intros ->. reflexivity. Qed.

End Query.

(** C7. With an empty filter the query returns every file of the vault; with
    a non-empty filter it returns, in vault order, exactly the files that
    own at least one of the requested tags.  So a file whose only tag is
    [#x] is returned for [#x,#y], for [#x] and for the empty filter, and not
    for [#y]. *)
Theorem getFileListByQuery_or_match
    (files : list TFile) (cache : TFile -> option CachedMetadata) :
  getFileListByQuery (host files cache) [] = Ok files
  /\ (forall t tags,
        exists results,
          getFileListByQuery (host files cache) (t :: tags) = Ok results
          /\ results = List.filter (ownsOneOf cache (t :: tags)) files
          /\ forall f, f ∈ results <->
               f ∈ files /\
               exists own, own ∈ ownTags cache f /\ own ∈ t :: tags)
  /\ (forall f, f ∈ files -> ownTags cache f = ["#x"] ->
        getFileListByQuery (host files cache) ["#x"; "#y"] =
          Ok (List.filter (ownsOneOf cache ["#x"; "#y"]) files)
        /\ f ∈ List.filter (ownsOneOf cache ["#x"; "#y"]) files
        /\ getFileListByQuery (host files cache) ["#x"] =
             Ok (List.filter (ownsOneOf cache ["#x"]) files)
        /\ f ∈ List.filter (ownsOneOf cache ["#x"]) files
        /\ getFileListByQuery (host files cache) ["#y"] =
             Ok (List.filter (ownsOneOf cache ["#y"]) files)
        /\ (f ∉ List.filter (ownsOneOf cache ["#y"]) files)
        /\ getFileListByQuery (host files cache) [] = Ok files).
Proof.
  split; [apply getFileListByQuery_all|]. split.
  - intros t tags. eexists. split; [apply getFileListByQuery_filtered|].
    split; [reflexivity|]. intros f.
    rewrite list_elem_of_In, filter_In, <- list_elem_of_In.
    by rewrite ownsOneOf_spec.
  - intros f Hf Hown.
    rewrite !getFileListByQuery_filtered, getFileListByQuery_all.
    rewrite !list_elem_of_In, !filter_In, <- !list_elem_of_In.
    unfold ownsOneOf. rewrite Hown. cbn [existsb].
    repeat split; try done.
    intros [_ Hy]. rewrite orb_false_r in Hy.
    apply bool_decide_eq_true, list_elem_of_singleton in Hy. discriminate.
Qed.

(** C9. A file without an entry in the tag cache, or whose entry lists no
    tags, is in no result of a non-empty filter, and is returned under the
    empty filter like every file of the vault. *)
Theorem getFileListByQuery_untagged
    (files : list TFile) (cache : TFile -> option CachedMetadata)
    (f : TFile) (t : string) (tags : list string) :
  cache f = None \/
  cache f = Some {| Obsidian.tags := None |} \/
  cache f = Some {| Obsidian.tags := Some [] |} ->
  (exists results,
     getFileListByQuery (host files cache) (t :: tags) = Ok results
     /\ (f ∉ results))
  /\ (exists results,
        getFileListByQuery (host files cache) [] = Ok results
        /\ (f ∈ files -> f ∈ results)).
Proof.
  intros Hcache. split.
  - eexists. split; [apply getFileListByQuery_filtered|].
    rewrite list_elem_of_In, filter_In. intros [_ Hm].
    rewrite ownsOneOf_no_tags in Hm; [done|].
    unfold ownTags. by destruct Hcache as [->|[->| ->]].
  - eexists. split; [apply getFileListByQuery_all|]. done.
Qed.

(** ** JS maps *)

Section JsMapFacts.
Context {V : Type}.
Implicit Types (m : JsMap.t V) (k : string) (v : V).

Lemma get_set_eq k v m : JsMap.get k (JsMap.set k v m) = Some v.
Proof.
  induction m as [|[k' v'] m IH]; cbn.
  - by rewrite decide_True.
  - destruct (decide (k' = k)) as [->|Hne]; cbn.
    + by rewrite decide_True.
    + by rewrite decide_False.
Qed.

Lemma get_set_ne k k' v m :
  k <> k' -> JsMap.get k' (JsMap.set k v m) = JsMap.get k' m.
Proof.
  intros Hne. induction m as [|[k0 v0] m IH]; cbn.
  - by rewrite decide_False.
  - destruct (decide (k0 = k)) as [->|Hne0]; cbn.
    + by rewrite !decide_False.
    + destruct (decide (k0 = k')); [done|apply IH].
Qed.

Lemma keys_set k v m :
  forall k', k' ∈ JsMap.keys (JsMap.set k v m) <->
             k' = k \/ k' ∈ JsMap.keys m.
Proof.
  intros k'. unfold JsMap.keys.
  induction m as [|[k0 v0] m IH]; cbn.
  - rewrite list_elem_of_singleton, elem_of_nil. tauto.
  - destruct (decide (k0 = k)) as [->|Hne0]; cbn.
    + rewrite elem_of_cons. tauto.
    + rewrite !elem_of_cons, IH. tauto.
Qed.

Lemma wf_set k v m : JsMap.wf m -> JsMap.wf (JsMap.set k v m).
Proof.
  unfold JsMap.wf. induction m as [|[k0 v0] m IH]; cbn.
  - intros _. apply NoDup_singleton.
  - rewrite NoDup_cons. intros [Hnotin Hnd].
    destruct (decide (k0 = k)) as [->|Hne0]; cbn.
    + by apply NoDup_cons.
    + apply NoDup_cons. split; [|by apply IH].
      intros Hin. apply keys_set in Hin as [->|Hin]; done.
Qed.

Lemma delete_filter k m :
  JsMap.delete k m = filter (fun kv => kv.1 <> k) (m : list (string * V)).
Proof.
  induction m as [|[k0 v0] m IH]; [done|]. cbn [JsMap.delete].
  destruct (decide (k0 = k)) as [->|Hne0].
  - rewrite filter_cons_False; [done|]. cbn. tauto.
  - rewrite filter_cons_True by done. by rewrite IH.
Qed.

Lemma get_delete_ne k k' m :
  k <> k' -> JsMap.get k' (JsMap.delete k m) = JsMap.get k' m.
Proof.
  intros Hne. induction m as [|[k0 v0] m IH]; cbn; [done|].
  destruct (decide (k0 = k)) as [->|Hne0]; cbn.
  - by rewrite decide_False.
  - destruct (decide (k0 = k')); [done|apply IH].
Qed.

Lemma get_None k m : JsMap.get k m = None <-> k ∉ JsMap.keys m.
Proof.
  unfold JsMap.keys. induction m as [|[k0 v0] m IH]; cbn.
  - split; [intros _; apply not_elem_of_nil|done].
  - rewrite not_elem_of_cons.
    destruct (decide (k0 = k)) as [->|Hne0].
    + split; [done|]. by intros [? _].
    + rewrite IH. split; [|by intros [_ ?]]. intros ?. split; congruence.
Qed.

Lemma get_Some_elem k v m : JsMap.get k m = Some v -> (k, v) ∈ m.
Proof.
  induction m as [|[k0 v0] m IH]; cbn; [done|].
  destruct (decide (k0 = k)) as [->|Hne0].
  - intros [= ->]. left.
  - intros H. right. by apply IH.
Qed.

Lemma elem_get_Some k v m : JsMap.wf m -> (k, v) ∈ m -> JsMap.get k m = Some v.
Proof.
  unfold JsMap.wf, JsMap.keys. induction m as [|[k0 v0] m IH]; cbn.
  - intros _ H. by apply elem_of_nil in H.
  - rewrite NoDup_cons, elem_of_cons. intros [Hnotin Hnd] [[= -> ->]|Hin].
    + by rewrite decide_True.
    + rewrite decide_False; [by apply IH|].
      intros ->. apply Hnotin. by apply (list_elem_of_fmap_2 fst) in Hin.
Qed.

Lemma has_get k m : JsMap.has k m = true <-> is_Some (JsMap.get k m).
Proof.
  unfold JsMap.has. rewrite bool_decide_eq_true.
  destruct (JsMap.get k m) as [v|] eqn:Hget.
  - split; [by eauto|]. intros _.
    apply get_Some_elem, (list_elem_of_fmap_2 fst) in Hget. done.
  - apply get_None in Hget. split; [done|]. by intros [? [=]].
Qed.

(** The first entry for a key, moved to the front, with all entries for
    the key removed from the rest, is within the map. *)
Lemma delete_submseteq k v m :
  JsMap.get k m = Some v -> (k, v) :: JsMap.delete k m ⊆+ m.
Proof.
  induction m as [|[k0 v0] m IH]; cbn; [done|].
  destruct (decide (k0 = k)) as [->|Hne0].
  - intros [= ->]. apply submseteq_skip. rewrite delete_filter.
    apply sublist_submseteq, sublist_filter.
  - intros H. etransitivity; [apply submseteq_swap|].
    apply submseteq_skip. by apply IH.
Qed.

Lemma set_submseteq k v m : JsMap.set k v m ⊆+ (k, v) :: m.
Proof.
  induction m as [|[k0 v0] m IH]; cbn; [done|].
  destruct (decide (k0 = k)) as [->|Hne0].
  - apply submseteq_skip. by apply submseteq_cons.
  - etransitivity; [|apply submseteq_swap]. by apply submseteq_skip.
Qed.

End JsMapFacts.

(** ** Marker reconciler *)

Lemma unclaimed_nil (drawn : MarkersMap) : unclaimed [] drawn = drawn.
Proof.
  unfold unclaimed, ids. induction drawn as [|kv drawn IH]; [done|].
  rewrite filter_cons_True by apply not_elem_of_nil. by rewrite IH.
Qed.

Lemma unclaimed_cons (marker : FileMarker) (rest : list FileMarker)
    (drawn : MarkersMap) :
  unclaimed (marker :: rest) drawn =
  unclaimed rest (JsMap.delete (id marker) drawn).
Proof.
  unfold unclaimed, ids. rewrite delete_filter, list_filter_filter.
  apply list_filter_iff. intros [k e]. cbn. rewrite not_elem_of_cons. tauto.
Qed.

Lemma unclaimed_absent (marker : FileMarker) (rest : list FileMarker)
    (drawn : MarkersMap) :
  JsMap.get (id marker) drawn = None ->
  unclaimed (marker :: rest) drawn = unclaimed rest drawn.
Proof.
  intros Hget. rewrite unclaimed_cons. f_equal. rewrite delete_filter.
  apply get_None in Hget. unfold JsMap.keys in Hget.
  induction drawn as [|[k e] drawn IH]; [done|].
  cbn in Hget. apply not_elem_of_cons in Hget as [Hne Hrest].
  rewrite filter_cons_True by (cbn; congruence). by rewrite IH.
Qed.

Lemma act_bind_run {A B} (m : Act A) (f : A -> Act B) (v : MapView) :
  (m ≫= f) v =
  match m v with
  | (Ok a, v') => f a v'
  | (Throw e, v') => (Throw e, v')
  end.
Proof. reflexivity. Qed.

Lemma act_ret_run {A} (a : A) (v : MapView) : (mret a : Act A) v = (Ok a, v).
Proof. reflexivity. Qed.

(** Running a method one bind at a time. *)
Ltac act_step :=
  rewrite ?act_bind_run, ?act_ret_run;
  unfold onMap; unfold reading, writing, await, throwing; cbn beta iota.

Ltac act_run :=
  repeat first
    [ rewrite act_bind_run
    | rewrite act_ret_run
    | progress unfold onMap
    | progress unfold reading, writing, await, throwing
    | progress cbn beta iota ].

Lemma keepOrCreate_keep (v : MapView) (marker existing : FileMarker)
    (acc : MarkersMap) :
  JsMap.get (id marker) (markers (display v)) = Some existing ->
  keepOrCreate marker acc v =
  (Ok (JsMap.set (id marker) existing acc),
   withDisplay (withMarkers (JsMap.delete (id marker) (markers (display v)))
                            (display v)) v).
Proof.
  intros Hget. unfold keepOrCreate. act_step. rewrite Hget. reflexivity.
Qed.

Lemma keepOrCreate_create (v : MapView) (marker : FileMarker)
    (acc : MarkersMap) :
  JsMap.get (id marker) (markers (display v)) = None ->
  keepOrCreate marker acc v =
  (Ok (JsMap.set (id marker)
         (withMapMarker (created (map (display v))) marker) acc),
   withDisplay
     (withMap {| calls := calls (map (display v)) ++
                   addCalls [(created (map (display v)), marker)];
                 created := S (created (map (display v))) |}
              (display v)) v).
Proof.
  intros Hget. unfold keepOrCreate. act_step. rewrite Hget. reflexivity.
Qed.

Lemma afterFirstLoop_nil (v : MapView) :
  afterFirstLoop v [] (markers (display v)) = v.
Proof.
  destruct v as [? ? ? ? ? ? ? [[cs n] ms tb]].
  unfold afterFirstLoop, withDisplay, addCalls. cbn.
  by rewrite app_nil_r, Nat.add_0_r.
Qed.

Lemma afterFirstLoop_keep (v : MapView) (ms left : MarkersMap)
    (news : list (Marker * FileMarker)) :
  afterFirstLoop (withDisplay (withMarkers ms (display v)) v) news left =
  afterFirstLoop v news left.
Proof. reflexivity. Qed.

Lemma afterFirstLoop_create (v : MapView) (marker : FileMarker)
    (left : MarkersMap) (news : list (Marker * FileMarker)) :
  afterFirstLoop
    (withDisplay
       (withMap {| calls := calls (map (display v)) ++
                     addCalls [(created (map (display v)), marker)];
                   created := S (created (map (display v))) |}
                (display v)) v) news left =
  afterFirstLoop v ((created (map (display v)), marker) :: news) left.
Proof.
  unfold afterFirstLoop, withDisplay, withMap, addCalls. cbn.
  rewrite <- app_assoc. cbn. by rewrite Nat.add_succ_r.
Qed.

Lemma forEachNew_cons (marker : FileMarker) (rest : list FileMarker)
    (acc : MarkersMap) (v : MapView) :
  forEachNew (marker :: rest) acc v =
  match JsMap.get (id marker) (markers (display v)) with
  | Some existing =>
      forEachNew rest (JsMap.set (id marker) existing acc)
        (withDisplay (withMarkers (JsMap.delete (id marker)
                                     (markers (display v)))
                                  (display v)) v)
  | None =>
      forEachNew rest
        (JsMap.set (id marker)
           (withMapMarker (created (map (display v))) marker) acc)
        (withDisplay
           (withMap {| calls := calls (map (display v)) ++
                         addCalls [(created (map (display v)), marker)];
                       created := S (created (map (display v))) |}
                    (display v)) v)
  end.
Proof.
  cbn [forEachNew]. rewrite act_bind_run.
  destruct (JsMap.get (id marker) (markers (display v))) as [e|] eqn:Hget.
  - by rewrite (keepOrCreate_keep _ _ _ _ Hget).
  - by rewrite (keepOrCreate_create _ _ _ Hget).
Qed.

(** What the first loop leaves in the accumulated map. *)
Lemma forEachNew_result (newMarkers : list FileMarker) :
  forall (acc : MarkersMap) (v : MapView) (acc' : MarkersMap) (v' : MapView),
    forEachNew newMarkers acc v = (Ok acc', v') ->
    (forall k, k ∈ JsMap.keys acc' <->
               k ∈ JsMap.keys acc \/ k ∈ ids newMarkers)
    /\ (JsMap.wf acc -> JsMap.wf acc')
    /\ (forall k, k ∉ ids newMarkers -> JsMap.get k acc' = JsMap.get k acc)
    /\ (NoDup (ids newMarkers) ->
        forall marker existing,
          marker ∈ newMarkers ->
          JsMap.get (id marker) (markers (display v)) = Some existing ->
          JsMap.get (id marker) acc' = Some existing).
Proof.
  induction newMarkers as [|m rest IH]; intros acc v acc' v' Hrun.
  - cbn in Hrun. injection Hrun as <- <-. unfold ids. cbn.
    repeat split; try done.
    + by left.
    + intros [?|Hin]; [done|]. by apply elem_of_nil in Hin.
    + intros _ marker existing Hin. by apply elem_of_nil in Hin.
  - rewrite forEachNew_cons in Hrun. unfold ids. cbn [fmap list_fmap].
    fold (ids rest).
    destruct (JsMap.get (id m) (markers (display v))) as [e|] eqn:Hget;
      apply IH in Hrun as (Hkeys & Hwf & Hother & Hkept);
      (split; [|split; [|split]]).
    + intros k. rewrite Hkeys, keys_set, elem_of_cons. tauto.
    + intros Hacc. by apply Hwf, wf_set.
    + intros k [Hne Hrest]%not_elem_of_cons.
      rewrite Hother by done. by apply get_set_ne.
    + intros [Hfresh Hnd]%NoDup_cons marker existing Hin Hdrawn.
      apply elem_of_cons in Hin as [->|Hin].
      * rewrite Hother by done. rewrite get_set_eq. congruence.
      * apply (Hkept Hnd); [done|]. cbn.
        rewrite get_delete_ne; [done|]. intros Heq. apply Hfresh.
        rewrite Heq. by apply (list_elem_of_fmap_2 id).
    + intros k. rewrite Hkeys, keys_set, elem_of_cons. tauto.
    + intros Hacc. by apply Hwf, wf_set.
    + intros k [Hne Hrest]%not_elem_of_cons.
      rewrite Hother by done. by apply get_set_ne.
    + intros [Hfresh Hnd]%NoDup_cons marker existing Hin Hdrawn.
      apply elem_of_cons in Hin as [->|Hin]; [congruence|].
      by apply (Hkept Hnd).
Qed.

Lemma values_set_submseteq (k : string) (e : FileMarker) (m : MarkersMap) :
  JsMap.values (JsMap.set k e m) ⊆+ e :: JsMap.values m.
Proof.
  unfold JsMap.values.
  change (e :: m.*2) with (((k, e) :: m).*2).
  apply fmap_submseteq, set_submseteq.
Qed.

Lemma values_delete_submseteq (k : string) (e : FileMarker) (m : MarkersMap) :
  JsMap.get k m = Some e ->
  e :: JsMap.values (JsMap.delete k m) ⊆+ JsMap.values m.
Proof.
  intros Hget. unfold JsMap.values.
  change (e :: (JsMap.delete k m).*2) with (((k, e) :: JsMap.delete k m).*2).
  by apply fmap_submseteq, delete_submseteq.
Qed.

(** What the first loop does to the view: it always completes, leaves the
    unclaimed entries in [display.markers], and creates marker objects with
    consecutive identities. *)
Lemma forEachNew_run (newMarkers : list FileMarker) :
  forall (acc : MarkersMap) (v : MapView),
  exists (acc' : MarkersMap) (news : list (Marker * FileMarker)),
    forEachNew newMarkers acc v =
      (Ok acc', afterFirstLoop v news
                  (unclaimed newMarkers (markers (display v))))
    /\ news.*1 = seq (created (map (display v))) (length news)
    /\ JsMap.values acc' ++
         JsMap.values (unclaimed newMarkers (markers (display v)))
       ⊆+ stamped news ++ JsMap.values acc ++
            JsMap.values (markers (display v)).
Proof.
  induction newMarkers as [|m rest IH]; intros acc v.
  - exists acc, []. rewrite unclaimed_nil, afterFirstLoop_nil. done.
  - rewrite forEachNew_cons.
    destruct (JsMap.get (id m) (markers (display v))) as [e|] eqn:Hget.
    + edestruct IH as (acc' & news & -> & Hseq & Hsub).
      exists acc', news. rewrite afterFirstLoop_keep, unclaimed_cons.
      split; [done|]. split; [exact Hseq|].
      cbn [display markers withDisplay withMarkers] in Hsub.
      etransitivity; [exact Hsub|]. apply submseteq_skips_l.
      etransitivity;
        [apply submseteq_skips_r, values_set_submseteq|].
      rewrite <- app_comm_cons, Permutation_middle.
      apply submseteq_skips_l. by apply values_delete_submseteq.
    + edestruct IH as (acc' & news & -> & Hseq & Hsub).
      exists acc', ((created (map (display v)), m) :: news).
      rewrite afterFirstLoop_create, unclaimed_absent by done.
      split; [done|].
      cbn [display markers map created withDisplay withMap] in Hseq, Hsub.
      split; [cbn; by rewrite Hseq|].
      etransitivity; [exact Hsub|]. unfold stamped.
      cbn [fmap list_fmap fst snd].
      rewrite <- app_comm_cons, Permutation_middle. apply submseteq_skips_l.
      change (withMapMarker (created (map (display v))) m ::
              JsMap.values acc ++ JsMap.values (markers (display v)))
        with ((withMapMarker (created (map (display v))) m ::
               JsMap.values acc) ++ JsMap.values (markers (display v))).
      apply submseteq_skips_r, values_set_submseteq.
Qed.

Lemma removeEach_run (entries : list (string * FileMarker)) :
  forall v : MapView,
    Forall (fun e => is_Some (mapMarker e)) entries.*2 ->
    removeEach entries v =
    (Ok tt,
     withDisplay
       (withMap {| calls := calls (map (display v)) ++
                     (RemoveMarker <$> omap mapMarker entries.*2);
                   created := created (map (display v)) |}
                (display v)) v).
Proof.
  induction entries as [|[k e] entries IH]; intros v Hall.
  - cbn. rewrite app_nil_r.
    by destruct v as [? ? ? ? ? ? ? [[cs n] ms tb]].
  - cbn [fmap list_fmap snd] in Hall. apply Forall_cons in Hall as [[h Hh] Hall].
    cbn [removeEach]. rewrite Hh. act_step. rewrite IH by exact Hall.
    cbn [fmap list_fmap snd omap list_omap]. rewrite Hh.
    unfold withDisplay, withMap, received. cbn.
    by rewrite <- app_assoc.
Qed.

Lemma unclaimed_sublist (newMarkers : list FileMarker) (drawn : MarkersMap) :
  unclaimed newMarkers drawn `sublist_of` drawn.
Proof. apply sublist_filter. Qed.

Lemma omap_sublist {A B} (f : A -> option B) (l1 l2 : list A) :
  l1 `sublist_of` l2 -> omap f l1 `sublist_of` omap f l2.
Proof.
  induction 1 as [|x l1 l2 _ IH|x l1 l2 _ IH]; cbn.
  - constructor.
  - destruct (f x); [by constructor|done].
  - destruct (f x); [by constructor|done].
Qed.

Lemma omap_submseteq {A B} (f : A -> option B) (l1 l2 : list A) :
  l1 ⊆+ l2 -> omap f l1 ⊆+ omap f l2.
Proof.
  induction 1 as [|x l1 l2 _ IH|x y l|x l1 l2 _ IH|l1 l2 l3 _ IH1 _ IH2]; cbn.
  - constructor.
  - destruct (f x); [by constructor|done].
  - destruct (f x), (f y); try done. constructor.
  - destruct (f x); [by constructor|done].
  - by etransitivity.
Qed.

Lemma Forall_submseteq {A} (P : A -> Prop) (l1 l2 : list A) :
  l1 ⊆+ l2 -> Forall P l2 -> Forall P l1.
Proof.
  rewrite !Forall_forall. intros Hsub Hall x Hin.
  apply Hall. by eapply elem_of_submseteq.
Qed.

Lemma NoDup_submseteq_inv {A} (l1 l2 : list A) :
  l1 ⊆+ l2 -> NoDup l2 -> NoDup l1.
Proof.
  intros (k & Hperm)%submseteq_Permutation. rewrite Hperm, NoDup_app.
  tauto.
Qed.

Lemma drawnHandles_unclaimed_sublist (newMarkers : list FileMarker)
    (drawn : MarkersMap) :
  drawnHandles (unclaimed newMarkers drawn) `sublist_of` drawnHandles drawn.
Proof.
  unfold drawnHandles, JsMap.values.
  apply omap_sublist, fmap_sublist, unclaimed_sublist.
Qed.

(** A full pass over a well-formed display completes, and the view it
    leaves is [afterPass]. *)
Lemma updateMapMarkers_run (newMarkers : list FileMarker) (v : MapView) :
  drawn_ok (display v) ->
  exists (result : MarkersMap) (news : list (Marker * FileMarker)),
    updateMapMarkers newMarkers v =
      (Ok tt,
       afterPass v news
         (drawnHandles (unclaimed newMarkers (markers (display v)))) result)
    /\ forEachNew newMarkers [] v =
         (Ok result,
          afterFirstLoop v news (unclaimed newMarkers (markers (display v))))
    /\ news.*1 = seq (created (map (display v))) (length news)
    /\ JsMap.values result ++
         JsMap.values (unclaimed newMarkers (markers (display v)))
       ⊆+ stamped news ++ JsMap.values (markers (display v)).
Proof.
  intros (Hwf & Hsome & Hnd & Hlt).
  destruct (forEachNew_run newMarkers [] v)
    as (result & news & Hloop & Hseq & Hsub).
  exists result, news. split; [|done].
  unfold updateMapMarkers. act_step. rewrite Hloop. act_step.
  rewrite removeEach_run.
  - unfold afterPass, afterFirstLoop, withDisplay, withMap, drawnHandles,
      JsMap.values. cbn. by rewrite <- app_assoc.
  - cbn. eapply Forall_submseteq; [|exact Hsome].
    apply sublist_submseteq, fmap_sublist, unclaimed_sublist.
Qed.

Lemma omap_stamped (news : list (Marker * FileMarker)) :
  omap mapMarker (stamped news) = news.*1.
Proof.
  unfold stamped. induction news as [|[h m] news IH]; [done|].
  cbn. by rewrite IH.
Qed.

Lemma stamped_is_Some (news : list (Marker * FileMarker)) :
  Forall (fun e => is_Some (mapMarker e)) (stamped news).
Proof.
  unfold stamped. apply Forall_fmap, Forall_forall. intros [h m] _. cbn. eauto.
Qed.

(** The handles drawn after a pass: the new ones, or ones drawn before. *)
Lemma drawnHandles_result (v : MapView) (result : MarkersMap)
    (news : list (Marker * FileMarker)) (left : MarkersMap) :
  JsMap.values result ++ JsMap.values left
    ⊆+ stamped news ++ JsMap.values (markers (display v)) ->
  drawnHandles result ⊆+ news.*1 ++ drawnHandles (markers (display v)).
Proof.
  intros Hsub. unfold drawnHandles.
  rewrite <- omap_stamped, <- omap_app. apply omap_submseteq.
  etransitivity; [|exact Hsub]. by apply submseteq_inserts_r.
Qed.

(** [drawn_ok] is kept by a pass: what is drawn afterwards has unique keys
    and marker objects of its own, old ones or ones just created. *)
Lemma pass_drawn_ok (v : MapView) (newMarkers : list FileMarker)
    (result : MarkersMap) (news : list (Marker * FileMarker)) (d' : Display) :
  drawn_ok (display v) ->
  forEachNew newMarkers [] v =
    (Ok result,
     afterFirstLoop v news (unclaimed newMarkers (markers (display v)))) ->
  news.*1 = seq (created (map (display v))) (length news) ->
  JsMap.values result ++
    JsMap.values (unclaimed newMarkers (markers (display v)))
  ⊆+ stamped news ++ JsMap.values (markers (display v)) ->
  markers d' = result ->
  created (map d') = created (map (display v)) + length news ->
  drawn_ok d'.
Proof.
  intros (Hwf & Hsome & Hnd & Hlt) Hloop Hseq Hsub Hmarkers Hcreated.
  apply forEachNew_result in Hloop as (_ & Hwf' & _).
  pose proof (drawnHandles_result _ _ _ _ Hsub) as Hhandles.
  unfold drawn_ok. rewrite Hmarkers, Hcreated.
  split; [apply Hwf'; apply NoDup_nil_2|].
  split; [|split].
  - eapply Forall_submseteq.
    + etransitivity; [|exact Hsub]. by apply submseteq_inserts_r.
    + apply Forall_app. split; [apply stamped_is_Some|exact Hsome].
  - eapply NoDup_submseteq_inv; [exact Hhandles|].
    apply NoDup_app. split; [rewrite Hseq; apply NoDup_seq|].
    split; [|exact Hnd].
    intros h Hnew Hold. rewrite Hseq in Hnew. apply elem_of_seq in Hnew.
    rewrite Forall_forall in Hlt. apply Hlt in Hold. lia.
  - eapply Forall_submseteq; [exact Hhandles|].
    apply Forall_app. split.
    + rewrite Hseq. apply Forall_forall. intros h Hh%elem_of_seq. lia.
    + eapply Forall_impl; [exact Hlt|]. intros h Hh. cbn in Hh. lia.
Qed.

Lemma updateMapMarkers_drawn_ok (newMarkers : list FileMarker) (v : MapView) :
  drawn_ok (display v) ->
  exists v', updateMapMarkers newMarkers v = (Ok tt, v')
             /\ drawn_ok (display v').
Proof.
  intros Hok.
  destruct (updateMapMarkers_run newMarkers v Hok)
    as (result & news & -> & Hloop & Hseq & Hsub).
  eexists. split; [reflexivity|]. by eapply (pass_drawn_ok v).
Qed.

(** ** Counting calls *)

Lemma count_app (p : Call -> bool) (cs1 cs2 : list Call) :
  count p (cs1 ++ cs2) = count p cs1 + count p cs2.
Proof. unfold count. by rewrite List.filter_app, length_app. Qed.

Lemma count_isRemoveOf_adds (h : Marker) (news : list (Marker * FileMarker)) :
  count (isRemoveOf h) (addCalls news) = 0.
Proof. unfold count, addCalls. by induction news. Qed.

Lemma count_isFitBounds_adds (news : list (Marker * FileMarker)) :
  count isFitBounds (addCalls news) = 0.
Proof. unfold count, addCalls. by induction news. Qed.

Lemma count_isFitBounds_removes (removed : list Marker) :
  count isFitBounds (RemoveMarker <$> removed) = 0.
Proof. unfold count. by induction removed. Qed.

Lemma count_isAddOf_removes (h : Marker) (removed : list Marker) :
  count (isAddOf h) (RemoveMarker <$> removed) = 0.
Proof. unfold count. by induction removed. Qed.

Lemma count_isRemoveOf_absent (h : Marker) (removed : list Marker) :
  h ∉ removed -> count (isRemoveOf h) (RemoveMarker <$> removed) = 0.
Proof.
  unfold count. induction removed as [|h' removed IH]; [done|].
  intros [Hne Hrest]%not_elem_of_cons. cbn.
  rewrite bool_decide_eq_false_2 by congruence. by apply IH.
Qed.

Lemma count_isRemoveOf_once (h : Marker) (removed : list Marker) :
  NoDup removed -> h ∈ removed ->
  count (isRemoveOf h) (RemoveMarker <$> removed) = 1.
Proof.
  induction removed as [|h' removed IH]; intros Hnd Hin.
  - by apply elem_of_nil in Hin.
  - apply NoDup_cons in Hnd as [Hfresh Hnd].
    unfold count in *. cbn.
    apply elem_of_cons in Hin as [->|Hin].
    + rewrite bool_decide_eq_true_2 by done. cbn. f_equal.
      by apply count_isRemoveOf_absent.
    + rewrite bool_decide_eq_false_2; [by apply IH|].
      intros ->. done.
Qed.

Lemma count_isAddOf_absent (h : Marker) (news : list (Marker * FileMarker)) :
  h ∉ news.*1 -> count (isAddOf h) (addCalls news) = 0.
Proof.
  unfold count, addCalls. induction news as [|[h' m] news IH]; [done|].
  cbn. intros [Hne Hrest]%not_elem_of_cons.
  rewrite bool_decide_eq_false_2 by congruence. by apply IH.
Qed.

Lemma callsSince_afterPass (v : MapView) (news : list (Marker * FileMarker))
    (removed : list Marker) (result : MarkersMap) :
  callsSince v (afterPass v news removed result) =
  addCalls news ++ (RemoveMarker <$> removed).
Proof. unfold callsSince, afterPass. cbn. by rewrite drop_app_length. Qed.

(** Two entries of a well-formed display that share a marker object are the
    same entry. *)
Lemma drawn_handle_owner (drawn : MarkersMap) (k k' : string)
    (e e' : FileMarker) (h : Marker) :
  NoDup (drawnHandles drawn) ->
  (k, e) ∈ drawn -> (k', e') ∈ drawn ->
  mapMarker e = Some h -> mapMarker e' = Some h -> k = k'.
Proof.
  intros Hnd Hin Hin' Hh Hh'.
  apply list_elem_of_split in Hin as (l1 & l2 & ->).
  unfold drawnHandles, JsMap.values in Hnd.
  rewrite fmap_app, omap_app in Hnd. cbn in Hnd. rewrite Hh in Hnd.
  apply NoDup_app in Hnd as (_ & Hdisj & Hnd2).
  apply NoDup_cons in Hnd2 as [Hfresh _].
  assert (forall l : list (string * FileMarker),
            (k', e') ∈ l -> h ∈ omap mapMarker l.*2) as Hown.
  { intros l Hl. apply list_elem_of_omap. exists e'. split; [|done].
    by apply (list_elem_of_fmap_2 snd) in Hl. }
  apply elem_of_app in Hin' as [Hin'|Hin'].
  - exfalso. apply (Hdisj h); [by apply Hown|left].
  - apply elem_of_cons in Hin' as [[= -> ->]|Hin']; [done|].
    exfalso. apply Hfresh. by apply Hown.
Qed.

(** A stale entry's marker object is among those removed; a claimed
    entry's is not. *)
Lemma stale_handle_removed (newMarkers : list FileMarker) (drawn : MarkersMap)
    (k : string) (e : FileMarker) (h : Marker) :
  (k, e) ∈ drawn -> mapMarker e = Some h -> k ∉ ids newMarkers ->
  h ∈ drawnHandles (unclaimed newMarkers drawn).
Proof.
  intros Hin Hh Hstale. unfold drawnHandles, JsMap.values.
  apply list_elem_of_omap. exists e. split; [|done].
  apply (list_elem_of_fmap_2' snd _ (k, e)); [|done].
  unfold unclaimed. by apply list_elem_of_filter.
Qed.

Lemma claimed_handle_kept (newMarkers : list FileMarker) (drawn : MarkersMap)
    (k : string) (e : FileMarker) (h : Marker) :
  NoDup (drawnHandles drawn) ->
  (k, e) ∈ drawn -> mapMarker e = Some h -> k ∈ ids newMarkers ->
  h ∉ drawnHandles (unclaimed newMarkers drawn).
Proof.
  intros Hnd Hin Hh Hclaimed Hremoved. unfold drawnHandles, JsMap.values in Hremoved.
  apply list_elem_of_omap in Hremoved as (e' & He' & Hh').
  apply list_elem_of_fmap in He' as ([k' e''] & -> & Hin').
  unfold unclaimed in Hin'. apply list_elem_of_filter in Hin' as [Hstale Hin'].
  cbn in *. assert (k = k') as <- by eauto using drawn_handle_owner.
  done.
Qed.

(** C4. When the ids of the new markers are pairwise distinct, a pass maps
    every new id that was drawn before to the very entry that was drawn
    before, marker object included, whatever the location, file or icon of
    the new descriptor; that marker object is neither created again nor
    removed during the pass. *)
Theorem updateMapMarkers_keeps_existing
    (v : MapView) (newMarkers : list FileMarker) :
  drawn_ok (display v) ->
  NoDup (ids newMarkers) ->
  exists v',
    updateMapMarkers newMarkers v = (Ok tt, v')
    /\ forall marker existing,
         marker ∈ newMarkers ->
         JsMap.get (id marker) (markers (display v)) = Some existing ->
         JsMap.get (id marker) (markers (display v')) = Some existing
         /\ forall h, mapMarker existing = Some h ->
              count (isAddOf h) (callsSince v v') = 0
              /\ count (isRemoveOf h) (callsSince v v') = 0.
Proof.
  intros Hok Hnd.
  destruct (updateMapMarkers_run newMarkers v Hok)
    as (result & news & -> & Hloop & Hseq & Hsub).
  eexists. split; [reflexivity|]. intros marker existing Hin Hget.
  apply forEachNew_result in Hloop as (_ & _ & _ & Hkept).
  split; [by apply (Hkept Hnd)|]. intros h Hh.
  destruct Hok as (Hwf & Hsome & Hndh & Hlt).
  apply get_Some_elem in Hget.
  rewrite callsSince_afterPass, !count_app, count_isAddOf_removes,
    count_isRemoveOf_adds.
  rewrite count_isAddOf_absent, count_isRemoveOf_absent; [done| |].
  - eapply claimed_handle_kept; [done..|].
    by apply (list_elem_of_fmap_2 id).
  - rewrite Hseq. intros Hnew%elem_of_seq.
    rewrite Forall_forall in Hlt. assert (h < created (map (display v))); [|lia].
    apply Hlt. unfold drawnHandles, JsMap.values.
    apply list_elem_of_omap. exists existing. split; [|done].
    by apply (list_elem_of_fmap_2' snd _ (id marker, existing)).
Qed.

(** C5. After a pass the drawn map holds exactly the ids of the new list,
    each once, and the marker object of every entry drawn before whose id
    is not in the new list has been removed from the map exactly once. *)
Theorem updateMapMarkers_exact_ids_stale_removed_once
    (v : MapView) (newMarkers : list FileMarker) :
  drawn_ok (display v) ->
  exists v',
    updateMapMarkers newMarkers v = (Ok tt, v')
    /\ NoDup (JsMap.keys (markers (display v')))
    /\ (forall k, k ∈ JsMap.keys (markers (display v')) <->
                  k ∈ ids newMarkers)
    /\ (forall k e h,
          (k, e) ∈ markers (display v) -> mapMarker e = Some h ->
          k ∉ ids newMarkers ->
          count (isRemoveOf h) (callsSince v v') = 1).
Proof.
  intros Hok.
  destruct (updateMapMarkers_run newMarkers v Hok)
    as (result & news & -> & Hloop & Hseq & Hsub).
  eexists. split; [reflexivity|].
  apply forEachNew_result in Hloop as (Hkeys & Hwf' & _).
  destruct Hok as (Hwf & Hsome & Hndh & Hlt).
  cbn [afterPass display withDisplay markers].
  split; [apply Hwf'; apply NoDup_nil_2|]. split.
  - intros k. rewrite Hkeys. unfold JsMap.keys. cbn.
    rewrite elem_of_nil. tauto.
  - intros k e h Hin Hh Hstale.
    rewrite callsSince_afterPass, count_app, count_isRemoveOf_adds.
    apply count_isRemoveOf_once.
    + eapply sublist_NoDup; [exact Hndh|apply drawnHandles_unclaimed_sublist].
    + by eapply stale_handle_removed.
Qed.

(** ** What a method can write *)

Lemma displayOnly_bind {A B} (m : Act A) (f : A -> Act B) :
  displayOnly m -> (forall a, displayOnly (f a)) -> displayOnly (m ≫= f).
Proof.
  intros Hm Hf v. rewrite act_bind_run. destruct (Hm v) as [d Hd].
  destruct (m v) as [[a|e] v1]; cbn in Hd; subst v1.
  - destruct (Hf a (withDisplay d v)) as [d' Hd']. exists d'. by rewrite Hd'.
  - by exists d.
Qed.

Lemma displayOnly_ret {A} (a : A) : displayOnly (mret a : Act A).
Proof. intros v. exists (display v). by destruct v. Qed.

Lemma displayOnly_reading {A} (f : MapView -> A) : displayOnly (reading f).
Proof. intros v. exists (display v). by destruct v. Qed.

Lemma displayOnly_throwing {A} (e : string) :
  displayOnly (throwing e : Act A).
Proof. intros v. exists (display v). by destruct v. Qed.

Lemma displayOnly_await {A} (p : Outcome A) : displayOnly (await p).
Proof. intros v. exists (display v). by destruct v. Qed.

Lemma displayOnly_writing (f : Display -> MapView -> Display) :
  displayOnly (writing (fun v => withDisplay (f (display v) v) v)).
Proof. intros v. by eexists. Qed.

Lemma displayOnly_onMap (c : Call) : displayOnly (onMap c).
Proof. intros v. by eexists. Qed.

Create HintDb display_only.
#[local] Hint Resolve displayOnly_ret displayOnly_reading displayOnly_throwing
  displayOnly_await displayOnly_onMap : display_only.

Lemma displayOnly_createMarker (marker : FileMarker) :
  displayOnly (createMarker marker).
Proof.
  unfold createMarker. apply displayOnly_bind; [auto with display_only|].
  intros h. apply displayOnly_bind; [|auto with display_only].
  intros v. by eexists.
Qed.

Lemma displayOnly_keepOrCreate (marker : FileMarker) (acc : MarkersMap) :
  displayOnly (keepOrCreate marker acc).
Proof.
  unfold keepOrCreate. apply displayOnly_bind; [auto with display_only|].
  intros drawn. destruct (JsMap.get (id marker) drawn).
  - apply displayOnly_bind; [|auto with display_only]. intros v. by eexists.
  - apply displayOnly_bind; [apply displayOnly_createMarker|].
    auto with display_only.
Qed.

Lemma displayOnly_forEachNew (newMarkers : list FileMarker) :
  forall acc, displayOnly (forEachNew newMarkers acc).
Proof.
  induction newMarkers as [|m rest IH]; intros acc; cbn [forEachNew].
  - auto with display_only.
  - apply displayOnly_bind; [apply displayOnly_keepOrCreate|]. intros a. apply IH.
Qed.

Lemma displayOnly_removeEach (entries : list (string * FileMarker)) :
  displayOnly (removeEach entries).
Proof.
  induction entries as [|[k e] entries IH]; cbn [removeEach].
  - auto with display_only.
  - destruct (mapMarker e); [|auto with display_only].
    apply displayOnly_bind; auto with display_only.
Qed.

Lemma displayOnly_updateMapMarkers (newMarkers : list FileMarker) :
  displayOnly (updateMapMarkers newMarkers).
Proof.
  unfold updateMapMarkers.
  apply displayOnly_bind; [apply displayOnly_forEachNew|]. intros result.
  apply displayOnly_bind; [auto with display_only|]. intros left.
  apply displayOnly_bind; [apply displayOnly_removeEach|]. intros _.
  intros v. by eexists.
Qed.

Lemma displayOnly_autoFitMapToMarkers : displayOnly autoFitMapToMarkers.
Proof.
  unfold autoFitMapToMarkers.
  apply displayOnly_bind; [auto with display_only|]. intros drawn.
  destruct (0 <? JsMap.size drawn); auto with display_only.
Qed.

(** The part of [updateMapToState_commit] after [this.state = state]. *)
Lemma displayOnly_redraw (newMarkers : list FileMarker) (fit : bool) :
  displayOnly
    (updateMapMarkers newMarkers;;
     shown ← reading (fun v => Js.join "," (List.filter Js.nonempty
                                              (tags (committed v))));
     writing (fun v => withDisplay (withTagsBox shown (display v)) v);;
     view ← reading (fun v => SetView (mapCenter (committed v))
                                      (mapZoom (committed v)));
     onMap view;;
     if fit then autoFitMapToMarkers else mret tt).
Proof.
  apply displayOnly_bind; [apply displayOnly_updateMapMarkers|]. intros _.
  apply displayOnly_bind; [auto with display_only|]. intros shown.
  apply displayOnly_bind; [intros v; by eexists|]. intros _.
  apply displayOnly_bind; [auto with display_only|]. intros view.
  apply displayOnly_bind; [auto with display_only|]. intros _.
  destruct fit; [apply displayOnly_autoFitMapToMarkers|auto with display_only].
Qed.

(** ** State machine *)

(** A candidate older than the committed state changes nothing. *)
Lemma commit_old (st : Ref) (fit : bool) (newMarkers : list FileMarker)
    (v : MapView) :
  version (objects v st) < version (committed v) ->
  updateMapToState_commit st fit newMarkers v = (Ok tt, v).
Proof.
  intros Hold. unfold updateMapToState_commit. act_step.
  apply Nat.ltb_lt in Hold. by rewrite Hold.
Qed.

(** Any other candidate becomes the committed state, whatever happens to
    the display afterwards. *)
Lemma commit_current (st : Ref) (fit : bool) (newMarkers : list FileMarker)
    (v : MapView) :
  version (committed v) <= version (objects v st) ->
  exists d,
    (updateMapToState_commit st fit newMarkers v).2 =
    withDisplay d (withState st v).
Proof.
  intros Hcur. unfold updateMapToState_commit. rewrite act_bind_run.
  unfold reading at 1. cbn beta iota.
  apply Nat.ltb_ge in Hcur. rewrite Hcur. rewrite act_bind_run.
  unfold writing at 1. cbn beta iota.
  apply displayOnly_redraw.
Qed.

Lemma resume_old (p : Pending) (newMarkers : list FileMarker) (v : MapView) :
  version (objects v (candidate p)) < version (committed v) ->
  updateMapToState_resume p (Ok newMarkers) v = (Ok tt, v).
Proof.
  intros Hold. unfold updateMapToState_resume. act_step. by apply commit_old.
Qed.

Lemma resume_current (p : Pending) (newMarkers : list FileMarker)
    (v : MapView) :
  version (committed v) <= version (objects v (candidate p)) ->
  exists d,
    (updateMapToState_resume p (Ok newMarkers) v).2 =
    withDisplay d (withState (candidate p) v).
Proof.
  intros Hcur. unfold updateMapToState_resume. act_step.
  by apply commit_current.
Qed.

Lemma resume_rejected (p : Pending) (e : string) (v : MapView) :
  updateMapToState_resume p (Throw e) v = (Throw e, v).
Proof. reflexivity. Qed.

Lemma complete_old (v : MapView) (c : Completion) :
  versionOf v c < version (committed v) -> complete v c = v.
Proof. intros Hold. unfold complete. by rewrite resume_old. Qed.

Lemma complete_current (v : MapView) (c : Completion) :
  version (committed v) <= versionOf v c ->
  exists d, complete v c = withDisplay d (withState (candidate c.1) v).
Proof. intros Hcur. by apply resume_current. Qed.

Lemma complete_objects (v : MapView) (c : Completion) :
  objects (complete v c) = objects v /\ allocated (complete v c) = allocated v.
Proof.
  destruct (decide (versionOf v c < version (committed v))) as [Hold|Hcur].
  - by rewrite complete_old.
  - destruct (complete_current v c) as [d ->]; [lia|done].
Qed.

Lemma complete_version (v : MapView) (c : Completion) :
  version (committed (complete v c)) =
  version (committed v) `max` versionOf v c.
Proof.
  destruct (decide (versionOf v c < version (committed v))) as [Hold|Hcur].
  - rewrite complete_old by done. lia.
  - destruct (complete_current v c) as [d ->]; [lia|].
    unfold committed, versionOf in *. cbn. lia.
Qed.

Lemma completes_snoc (v : MapView) (order : list Completion) (c : Completion) :
  completes v (order ++ [c]) = complete (completes v order) c.
Proof. unfold completes. by rewrite foldl_app. Qed.

Lemma completes_objects (v : MapView) (order : list Completion) :
  objects (completes v order) = objects v.
Proof.
  induction order as [|c order IH] using rev_ind; [done|].
  rewrite completes_snoc. by rewrite (proj1 (complete_objects _ _)).
Qed.

Lemma versionOf_completes (v : MapView) (order : list Completion)
    (c : Completion) :
  versionOf (completes v order) c = versionOf v c.
Proof. unfold versionOf. by rewrite completes_objects. Qed.

Lemma max_list_with_snoc {A} (f : A -> nat) (l : list A) (x : A) :
  max_list_with f (l ++ [x]) = max_list_with f l `max` f x.
Proof. induction l as [|y l IH]; cbn; [lia|]. rewrite IH. lia. Qed.

Lemma completes_version (v : MapView) (order : list Completion) :
  version (committed (completes v order)) =
  version (committed v) `max` max_list_with (versionOf v) order.
Proof.
  induction order as [|c order IH] using rev_ind; [cbn; lia|].
  rewrite completes_snoc, complete_version, IH, versionOf_completes,
    max_list_with_snoc. lia.
Qed.




(** C8.  When the query throws or the builder's promise is rejected, the
    call fails with that error and the view, committed state and drawn
    markers included, is exactly what it was.  The same holds when other
    calls and events went on during the build: a throwing query suspends
    nothing and a rejected builder leaves the view of that moment. *)
Theorem updateMapToState_failure_leaves_view
    (buildMarkers : list TFile -> Outcome (list FileMarker))
    (st : Ref) (fit : bool) (v : MapView) (e : string) :
  getFileListByQuery (app v) (tags (objects v st)) = Throw e \/
  (exists queried,
     getFileListByQuery (app v) (tags (objects v st)) = Ok queried /\
     buildMarkers queried = Throw e) ->
  updateMapToState buildMarkers st fit v = (Throw e, v)
  /\ (forall p v', updateMapToState_resume p (Throw e) v' = (Throw e, v'))
  /\ (forall i s, view (settle i (Throw e) s) = view s)
  /\ (getFileListByQuery (app v) (tags (objects v st)) = Throw e ->
      forall s, view s = v -> call st fit s = s).
Proof.
  intros Hfail. split; [|split; [|split]].
  - unfold updateMapToState, updateMapToState_query. act_step.
    destruct Hfail as [->|(queried & -> & Hbuild)]; [done|].
    cbn beta iota. act_step. by rewrite Hbuild.
  - intros p v'. apply resume_rejected.
  - intros i s. unfold settle. by destruct (inflight s !! i).
  - intros Hquery s <-. unfold call, updateMapToState_query. act_run.
    rewrite Hquery. by destruct s.
Qed.

(** ** Fitting the viewport *)

Lemma updateMapMarkers_nil (v : MapView) :
  drawn_ok (display v) ->
  updateMapMarkers [] v =
  (Ok tt, afterPass v [] (drawnHandles (markers (display v))) []).
Proof.
  intros (_ & Hsome & _). unfold updateMapMarkers. cbn [forEachNew].
  act_run. rewrite removeEach_run by exact Hsome.
  unfold afterPass, addCalls. cbn. by rewrite Nat.add_0_r.
Qed.

Lemma viewport_SetView (m : Map) (center : LatLng) (zoom : Z) :
  viewport (received (SetView center zoom) m) = At center zoom.
Proof. unfold viewport, received. cbn. by rewrite foldl_app. Qed.

Lemma autoFitMapToMarkers_empty (v : MapView) :
  markers (display v) = [] -> autoFitMapToMarkers v = (Ok tt, v).
Proof. intros Hempty. unfold autoFitMapToMarkers. act_step. by rewrite Hempty. Qed.

(** C10.  With nothing drawn, [autoFitMapToMarkers] makes no call and
    changes nothing.  So when a call commits with no markers to draw, the
    widget receives no [fitBounds], with the auto-fit flag set or not, and
    its viewport is left at the candidate's centre and zoom. *)
Theorem autoFitMapToMarkers_nothing_drawn :
  (forall v, markers (display v) = [] ->
             autoFitMapToMarkers v = (Ok tt, v))
  /\ (forall p v,
        drawn_ok (display v) ->
        version (committed v) <= version (objects v (candidate p)) ->
        exists v',
          updateMapToState_resume p (Ok []) v = (Ok tt, v')
          /\ state v' = candidate p
          /\ markers (display v') = []
          /\ count isFitBounds (callsSince v v') = 0
          /\ viewport (map (display v')) =
               At (mapCenter (objects v (candidate p)))
                  (mapZoom (objects v (candidate p)))).
Proof.
  split; [apply autoFitMapToMarkers_empty|]. intros p v Hok Hcur.
  unfold updateMapToState_resume, updateMapToState_commit. act_run.
  apply Nat.ltb_ge in Hcur. rewrite Hcur. act_run.
  rewrite updateMapMarkers_nil by exact Hok. act_run.
  eexists. split.
  - destruct (autoFit p); [|reflexivity]. by apply autoFitMapToMarkers_empty.
  - split; [done|]. split; [done|]. split.
    + unfold callsSince, addCalls. cbn.
      rewrite <- app_assoc, drop_app_length, count_app,
        count_isFitBounds_removes. done.
    + cbn [map display withDisplay withMap]. by rewrite viewport_SetView.
Qed.

(** ** A committing call, in full *)

Lemma autoFitMapToMarkers_run (v : MapView) :
  autoFitMapToMarkers v =
  (Ok tt,
   if 0 <? JsMap.size (markers (display v))
   then withDisplay
          (withMap (received (FitBounds (location <$>
                                JsMap.values (markers (display v))))
                             (map (display v)))
                   (display v)) v
   else v).
Proof.
  unfold autoFitMapToMarkers. act_run.
  by destruct (0 <? JsMap.size (markers (display v))).
Qed.

(** A call that is not older than the committed state and finds the display
    well-formed completes, and leaves the view [afterCommit]. *)
Lemma commit_run (st : Ref) (fit : bool) (newMarkers : list FileMarker)
    (v : MapView) :
  drawn_ok (display v) ->
  version (committed v) <= version (objects v st) ->
  exists (result : MarkersMap) (news : list (Marker * FileMarker)),
    updateMapToState_commit st fit newMarkers v =
      (Ok tt,
       afterCommit v st fit news
         (drawnHandles (unclaimed newMarkers (markers (display v)))) result)
    /\ forEachNew newMarkers [] (withState st v) =
         (Ok result,
          afterFirstLoop (withState st v) news
            (unclaimed newMarkers (markers (display v))))
    /\ news.*1 = seq (created (map (display v))) (length news)
    /\ JsMap.values result ++
         JsMap.values (unclaimed newMarkers (markers (display v)))
       ⊆+ stamped news ++ JsMap.values (markers (display v)).
Proof.
  intros Hok Hcur.
  destruct (updateMapMarkers_run newMarkers (withState st v) Hok)
    as (result & news & Hpass & Hloop & Hseq & Hsub).
  exists result, news. split; [|done].
  unfold updateMapToState_commit. act_run.
  apply Nat.ltb_ge in Hcur. rewrite Hcur. act_run. rewrite Hpass. act_run.
  assert (forall w : MapView,
            (if fit then autoFitMapToMarkers else mret tt) w =
            (Ok tt, if fit && (0 <? JsMap.size (markers (display w)))
                    then withDisplay
                           (withMap
                              (received
                                 (FitBounds (location <$>
                                    JsMap.values (markers (display w))))
                                 (map (display w)))
                              (display w)) w
                    else w)) as Hfit.
  { intros w. destruct fit; [apply autoFitMapToMarkers_run|done]. }
  rewrite Hfit. f_equal.
  unfold afterCommit, afterPass.
  cbn [display markers withDisplay withMap withTagsBox].
  destruct (fit && (0 <? JsMap.size result));
    unfold withDisplay, withMap, received, withTagsBox, withState, committed;
    cbn; rewrite <- ?app_assoc; cbn; by rewrite ?app_nil_r.
Qed.

(** ** Handlers *)

Lemma call_spec (st : Ref) (fit : bool) (s : Sys) :
  call st fit s =
  match getFileListByQuery (app (view s)) (tags (objects (view s) st)) with
  | Ok queried =>
      {| view := view s;
         inflight := inflight s ++
           [{| candidate := st; autoFit := fit; files := queried |}] |}
  | Throw _ => s
  end.
Proof.
  unfold call, updateMapToState_query. act_run.
  destruct (getFileListByQuery _ _); [done|]. by destruct s.
Qed.

Lemma call_view (st : Ref) (fit : bool) (s : Sys) :
  view (call st fit s) = view s.
Proof. rewrite call_spec. by destruct (getFileListByQuery _ _). Qed.

Lemma call_inflight (st : Ref) (fit : bool) (s : Sys) (P : Pending -> Prop) :
  Forall P (inflight s) ->
  (forall queried,
     P {| candidate := st; autoFit := fit; files := queried |}) ->
  Forall P (inflight (call st fit s)).
Proof.
  intros Hall Hnew. rewrite call_spec.
  destruct (getFileListByQuery _ _); [|done]. cbn.
  apply Forall_app. split; [done|]. by apply Forall_singleton.
Qed.

Lemma call_view_ok (st : Ref) (fit : bool) (s : Sys) :
  view_ok s -> st < allocated (view s) -> view_ok (call st fit s).
Proof.
  intros [(Hstate & Hdefault & Hpending) Hdrawn] Hst.
  unfold view_ok, refs_ok. rewrite call_view.
  split; [split; [|split]|]; try done. by apply call_inflight.
Qed.

(** A handler that builds a state object and calls [updateMapToState] with
    it. *)
Lemma allocate_call_view_ok (newState : MapState) (fit : bool) (s : Sys) :
  view_ok s ->
  view_ok (call (allocate newState (view s)).1 fit
             {| view := (allocate newState (view s)).2;
                inflight := inflight s |})
  /\ committed (view (call (allocate newState (view s)).1 fit
                        {| view := (allocate newState (view s)).2;
                           inflight := inflight s |})) =
     committed (view s).
Proof.
  intros [(Hstate & Hdefault & Hpending) Hdrawn]. split.
  - apply call_view_ok; [|cbn; lia].
    unfold view_ok, refs_ok. cbn.
    split; [split; [|split]|]; try done; try lia.
    eapply Forall_impl; [exact Hpending|]. intros p Hp. cbn in Hp. lia.
  - rewrite call_view. unfold committed. cbn.
    rewrite decide_False; [done|lia].
Qed.

Lemma mutate_view_ok (f : MapState -> MapState) (s : Sys) :
  view_ok s -> view_ok (onView (fun v => mutate (state v) f v) s).
Proof. intros [(Hstate & Hdefault & Hpending) Hdrawn]. done. Qed.

Lemma mutate_committed (f : MapState -> MapState) (v : MapView) :
  committed (mutate (state v) f v) = f (committed v).
Proof. unfold committed, mutate. cbn. by rewrite decide_True. Qed.

Lemma complete_view_ok (v : MapView) (c : Completion) :
  drawn_ok (display v) -> drawn_ok (display (complete v c)).
Proof.
  intros Hok.
  destruct (decide (versionOf v c < version (committed v))) as [Hold|Hcur].
  - by rewrite complete_old.
  - unfold complete, updateMapToState_resume. act_run.
    destruct (commit_run (candidate c.1) (autoFit c.1) c.2 v Hok)
      as (result & news & -> & Hloop & Hseq & Hsub);
      [unfold versionOf in Hcur; lia|].
    eapply (pass_drawn_ok (withState (candidate c.1) v)); try done.
Qed.

Lemma complete_state (v : MapView) (c : Completion) :
  state (complete v c) = state v \/ state (complete v c) = candidate c.1.
Proof.
  destruct (decide (versionOf v c < version (committed v))) as [Hold|Hcur].
  - left. by rewrite complete_old.
  - right. destruct (complete_current v c) as [d ->]; [lia|done].
Qed.

Lemma settle_spec (i : nat) (built : Outcome (list FileMarker)) (s : Sys) :
  settle i built s =
  match inflight s !! i with
  | Some p =>
      {| view := match built with
                 | Ok newMarkers => complete (view s) (p, newMarkers)
                 | Throw _ => view s
                 end;
         inflight := take i (inflight s) ++ drop (S i) (inflight s) |}
  | None => s
  end.
Proof. unfold settle. destruct (inflight s !! i); [|done]. by destruct built. Qed.

Lemma settle_view_ok (i : nat) (built : Outcome (list FileMarker)) (s : Sys) :
  view_ok s -> view_ok (settle i built s).
Proof.
  intros [(Hstate & Hdefault & Hpending) Hdrawn]. rewrite settle_spec.
  destruct (inflight s !! i) as [p|] eqn:Hp; [|done].
  assert (Forall (fun p => candidate p < allocated (view s))
            (take i (inflight s) ++ drop (S i) (inflight s))) as Hrest.
  { apply Forall_app. split; [by apply Forall_take|by apply Forall_drop]. }
  destruct built as [newMarkers|e]; [|done].
  unfold view_ok, refs_ok. cbn [view inflight].
  destruct (complete_objects (view s) (p, newMarkers)) as [_ ->].
  assert (defaultState (complete (view s) (p, newMarkers)) =
          defaultState (view s)) as ->.
  { destruct (decide (versionOf (view s) (p, newMarkers) <
                      version (committed (view s)))) as [Hold|Hcur].
    - by rewrite complete_old.
    - destruct (complete_current (view s) (p, newMarkers)) as [d ->];
        [lia|done]. }
  split; [split; [|split]|]; try done; [|by apply complete_view_ok].
  destruct (complete_state (view s) (p, newMarkers)) as [-> | ->]; [done|].
  cbn. rewrite Forall_forall in Hpending. apply Hpending.
  by eapply list_elem_of_lookup_2.
Qed.

Lemma fit_view_ok (s : Sys) : view_ok s -> view_ok (fitButton_onClick s).
Proof.
  intros [Hrefs Hdrawn]. unfold fitButton_onClick, onView, view_ok, refs_ok.
  cbn [view inflight]. rewrite autoFitMapToMarkers_run. cbn [snd].
  by destruct (0 <? JsMap.size (markers (display (view s)))).
Qed.

(** Every event keeps the invariant. *)
Lemma step_view_ok (s : Sys) (e : Event) : view_ok s -> view_ok (step s e).
Proof.
  intros Hok.
  destruct e as [given fit| |given|location|text| | |zoom|center|i built];
    cbn [step].
  - unfold updateMapToState_from.
    pose proof (allocate_call_view_ok given fit s Hok) as [H _].
    by destruct (allocate _ _).
  - apply call_view_ok; [done|]. by destruct Hok as [(_ & ? & _) _].
  - destruct given as [st|]; [|done]. unfold setState.
    pose proof (allocate_call_view_ok (withVersion 100 st) false s Hok) as [H _].
    by destruct (allocate _ _).
  - unfold zoomToLocation.
    match goal with
    | |- context [allocate ?ns _] =>
        pose proof (allocate_call_view_ok ns false s Hok) as [H _]
    end.
    by destruct (allocate _ _).
  - unfold tagsBox_onChange. apply call_view_ok; [by apply mutate_view_ok|].
    by destruct Hok as [(? & _) _].
  - unfold goDefault_onClick.
    match goal with
    | |- context [allocate ?ns _] =>
        pose proof (allocate_call_view_ok ns false s Hok) as [H _]
    end.
    by destruct (allocate _ _).
  - by apply fit_view_ok.
  - by apply mutate_view_ok.
  - by apply mutate_view_ok.
  - by apply settle_view_ok.
Qed.

(** Every event leaves the committed version where it was or raises it. *)
Lemma step_version (s : Sys) (e : Event) :
  view_ok s ->
  version (committed (view s)) <= version (committed (view (step s e))).
Proof.
  intros Hok.
  destruct e as [given fit| |given|location|text| | |zoom|center|i built];
    cbn [step].
  - unfold updateMapToState_from.
    pose proof (allocate_call_view_ok given fit s Hok) as [_ H].
    destruct (allocate _ _). cbn [fst snd] in H. by rewrite H.
  - unfold whenReady. by rewrite call_view.
  - destruct given as [st|]; [|done]. unfold setState.
    pose proof (allocate_call_view_ok (withVersion 100 st) false s Hok)
      as [_ H].
    destruct (allocate _ _). cbn [fst snd] in H. by rewrite H.
  - unfold zoomToLocation.
    match goal with
    | |- context [allocate ?ns _] =>
        pose proof (allocate_call_view_ok ns false s Hok) as [_ H]
    end.
    destruct (allocate _ _). cbn [fst snd] in H. by rewrite H.
  - unfold tagsBox_onChange. rewrite call_view. cbn [onView view].
    by rewrite mutate_committed.
  - unfold goDefault_onClick.
    match goal with
    | |- context [allocate ?ns _] =>
        pose proof (allocate_call_view_ok ns false s Hok) as [_ H]
    end.
    destruct (allocate _ _). cbn [fst snd] in H. by rewrite H.
  - unfold fitButton_onClick, onView. cbn [view].
    rewrite autoFitMapToMarkers_run. cbn [snd].
    by destruct (0 <? JsMap.size (markers (display (view s)))).
  - unfold map_onZoomend. cbn [onView view]. by rewrite mutate_committed.
  - unfold map_onMoveend. cbn [onView view]. by rewrite mutate_committed.
  - rewrite settle_spec. destruct (inflight s !! i) as [p|]; [|done].
    destruct built as [newMarkers|err]; [|done].
    cbn [view]. rewrite complete_version. lia.
Qed.


Lemma run_view_ok (s : Sys) (es : list Event) : view_ok s -> view_ok (run s es).
Proof.
  revert s. induction es as [|e es IH]; intros s Hok; [done|].
  cbn. by apply IH, step_view_ok.
Qed.

Lemma run_version (s : Sys) (es : list Event) :
  view_ok s ->
  version (committed (view s)) <= version (committed (view (run s es))).
Proof.
  revert s. induction es as [|e es IH]; intros s Hok; [done|].
  cbn. etransitivity; [by apply step_version|]. by apply IH, step_view_ok.
Qed.

(** ** The newest call wins *)

Lemma completes_all_old (order : list Completion) :
  forall v,
    Forall (fun c => versionOf v c < version (committed v)) order ->
    completes v order = v.
Proof.
  induction order as [|c order IH]; intros v Hall; [done|].
  apply Forall_cons in Hall as [Hc Hall]. cbn [completes foldl].
  rewrite complete_old by done. by apply IH.
Qed.

Lemma max_list_with_le {A} (f : A -> nat) (l : list A) (n : nat) :
  Forall (fun x => f x <= n) l -> max_list_with f l <= n.
Proof. induction 1; cbn; lia. Qed.

(** A call that is not older than the committed state, nor than any call
    completing before it, and newer than every call completing after it, is
    the one whose candidate and markers stay. *)
Lemma completes_newest (v : MapView) (before after : list Completion)
    (c : Completion) :
  version (committed v) <= versionOf v c ->
  Forall (fun c' => versionOf v c' <= versionOf v c) before ->
  Forall (fun c' => versionOf v c' < versionOf v c) after ->
  completes v (before ++ c :: after) = complete (completes v before) c
  /\ state (completes v (before ++ c :: after)) = candidate c.1.
Proof.
  intros Hcur Hbefore Hafter.
  assert (completes v (before ++ c :: after) =
          completes (complete (completes v before) c) after) as ->.
  { unfold completes. by rewrite foldl_app. }
  pose proof (completes_version v before) as Hw.
  pose proof (max_list_with_le _ _ _ Hbefore) as Hmax.
  pose proof (complete_version (completes v before) c) as Hc.
  rewrite versionOf_completes in Hc.
  rewrite completes_all_old.
  - split; [done|].
    destruct (complete_current (completes v before) c) as [d ->]; [|done].
    rewrite versionOf_completes. lia.
  - eapply Forall_impl; [exact Hafter|]. intros c' Hc'. cbn in Hc'.
    unfold versionOf at 1.
    rewrite (proj1 (complete_objects _ _)), completes_objects.
    fold (versionOf v c'). lia.
Qed.

(** With pairwise distinct versions, whatever the order of completion, the
    call with the greatest version is the one whose candidate ends up
    committed, provided it is not older than what was committed before. *)
Lemma completes_greatest_version_wins
    (v : MapView) (requests order : list Completion) (c : Completion) :
  order ≡ₚ requests ->
  NoDup (versionOf v <$> requests) ->
  c ∈ requests ->
  (forall c', c' ∈ requests -> versionOf v c' <= versionOf v c) ->
  version (committed v) <= versionOf v c ->
  state (completes v order) = candidate c.1
  /\ exists before, completes v order = complete (completes v before) c.
Proof.
  intros Hperm Hnd Hin Hmax Hcur.
  rewrite <- Hperm in Hnd, Hin.
  assert (forall c', c' ∈ order -> versionOf v c' <= versionOf v c) as Hmax'.
  { intros c' Hc'. apply Hmax. by rewrite <- Hperm. }
  apply list_elem_of_split in Hin as (before & after & ->).
  rewrite fmap_app, fmap_cons in Hnd.
  apply NoDup_app in Hnd as (_ & Hdisj & [Hfresh _]%NoDup_cons).
  destruct (completes_newest v before after c) as [Hrun Hstate];
    [done| | |].
  - apply Forall_forall. intros c' Hc'. apply Hmax'.
    apply elem_of_app. by left.
  - apply Forall_forall. intros c' Hc'.
    assert (versionOf v c' <= versionOf v c) as Hle.
    { apply Hmax'. apply elem_of_app. right. by right. }
    assert (versionOf v c' <> versionOf v c); [|lia].
    intros Heq. apply Hfresh. rewrite <- Heq.
    by apply (list_elem_of_fmap_2 (versionOf v)).
  - split; [done|]. by exists before.
Qed.

(** ** The committed version along a run *)















(** * Concrete runs *)

Ltac by_computation := apply (bool_decide_unpack _); vm_compute; exact I.


(** A call older than what is committed changes nothing, also when it is
    the only call suspended: the committed version stays at 2, above the
    version 1 of the call. *)
Lemma straggler_is_discarded :
  let v := view Vault.straggler in
  let requests := (fun p => (p, [Vault.markerA])) <$> inflight Vault.straggler in
  length requests = 1
  /\ max_list_with (versionOf v) requests = 1
  /\ version (committed v) = 2
  /\ completes v requests = v.
Proof.
  cbv zeta. split; [reflexivity|]. split; [reflexivity|].
  split; [reflexivity|]. apply complete_old. vm_compute. lia.
Qed.



(** [setState] always hands over version 100, whatever is committed. *)
Lemma setState_version (given : MapState) (s : Sys) :
  objects (view (setState (Some given) s)) (allocated (view s)) =
  withVersion 100 given.
Proof.
  unfold setState. cbn [allocate]. rewrite call_view. cbn.
  by rewrite decide_True.
Qed.

(** C3 at a failing input.  A restore has committed (version 100) and a
    zoom to a location after it (version 101).  A second restore is given
    version 100 again, which is lower than what is committed: when its
    builder settles the call is cancelled, and neither the committed state
    nor the display changes. *)
Lemma setState_after_version_101_is_cancelled :
  let s := Vault.restoredThenZoomed in
  let s' := setState (Some Vault.savedLater) s in
  version (getState s) = 101
  /\ (exists p, inflight s' = [p]
                /\ objects (view s') (candidate p) =
                   withVersion 100 Vault.savedLater)
  /\ getState (settle 0 (Ok [Vault.markerB]) s') = getState s
  /\ display (view (settle 0 (Ok [Vault.markerB]) s')) = display (view s)
  /\ getState (settle 0 (Ok [Vault.markerB]) s') <>
     withVersion 100 Vault.savedLater.
Proof.
  cbv zeta. split; [reflexivity|]. split; [by eexists|].
  split; [reflexivity|]. split; [reflexivity|]. vm_compute. discriminate.
Qed.

(** The tag box handler writes the parsed tags into the committed state
    object, leaves its version alone, and calls [updateMapToState] with
    that same object. *)
Lemma tagsBox_onChange_spec (text : string) (s : Sys) :
  let s' := tagsBox_onChange text s in
  tags (committed (view s')) =
    List.filter Js.nonempty (Js.split ","%char text)
  /\ version (committed (view s')) = version (committed (view s))
  /\ state (view s') = state (view s)
  /\ (inflight s' = inflight s \/
      exists queried,
        inflight s' = inflight s ++
          [{| candidate := state (view s);
              autoFit := autoZoom (settings (view s));
              files := queried |}]).
Proof.
  cbv zeta. unfold tagsBox_onChange. rewrite call_view, call_spec.
  cbn [onView view inflight]. rewrite mutate_committed.
  repeat split.
  destruct (getFileListByQuery _ _) as [queried|e]; [right|left]; [|done].
  by exists queried.
Qed.

(** C6 at a failing input.  Editing the tag box to [#x,,#y] while version 0
    is committed parses the tags and suspends a call whose candidate is the
    committed object itself, still with version 0.  Two edits in a row
    therefore carry the same version: when the builder of the first settles
    after the builder of the second, the markers of the first edit are what
    stays drawn. *)
Lemma tagsBox_onChange_does_not_raise_version :
  (let s := tagsBox_onChange "#x,,#y" Vault.bothDrawn in
   version (getState Vault.bothDrawn) = 0
   /\ tags (getState s) = ["#x"; "#y"]
   /\ version (getState s) = 0
   /\ exists p, inflight s = [p]
                /\ candidate p = state (view s)
                /\ autoFit p = true
                /\ version (objects (view s) (candidate p)) = 0)
  /\ (let s := run Vault.bothDrawn
                 [TagsBoxChange "#x"; TagsBoxChange "#x,#y";
                  Settle 1 (Ok [Vault.markerA; Vault.markerB]);
                  Settle 0 (Ok [Vault.markerA])] in
      tags (getState s) = ["#x"; "#y"]
      /\ tagsBox (display (view s)) = "#x,#y"
      /\ JsMap.keys (markers (display (view s))) = ["A"]).
Proof.
  cbv zeta. split.
  - split; [reflexivity|]. split; [reflexivity|]. split; [reflexivity|].
    by eexists.
  - by vm_compute.
Qed.

Lemma updateMapMarkers_keeps_existing_witness :
  exists v',
    updateMapMarkers [Vault.markerA_moved] (view Vault.bothDrawn) = (Ok tt, v')
    /\ JsMap.get "A" (markers (display v')) =
       Some (withMapMarker 0 Vault.markerA).
Proof.
  destruct (updateMapMarkers_keeps_existing (view Vault.bothDrawn)
              [Vault.markerA_moved]) as (v' & Hrun & Hkeep).
  - by_computation.
  - by_computation.
  - exists v'. split; [exact Hrun|].
    apply (Hkeep Vault.markerA_moved); [left|reflexivity].
Defined.

Lemma updateMapMarkers_exact_ids_stale_removed_once_witness :
  exists v',
    updateMapMarkers [Vault.markerA] (view Vault.bothDrawn) = (Ok tt, v')
    /\ NoDup (JsMap.keys (markers (display v')))
    /\ (forall k, k ∈ JsMap.keys (markers (display v')) <-> k ∈ ["A"])
    /\ count (isRemoveOf 1) (callsSince (view Vault.bothDrawn) v') = 1.
Proof.
  destruct (updateMapMarkers_exact_ids_stale_removed_once
              (view Vault.bothDrawn) [Vault.markerA])
    as (v' & Hrun & Hnd & Hkeys & Hremoved).
  - by_computation.
  - exists v'. split; [exact Hrun|]. split; [exact Hnd|].
    split; [exact Hkeys|].
    apply (Hremoved "B" (withMapMarker 1 Vault.markerB) 1).
    + right. left.
    + reflexivity.
    + by_computation.
Defined.

Lemma getFileListByQuery_or_match_witness :
  getFileListByQuery Vault.app ["#x"; "#y"] = Ok [Vault.noteA; Vault.noteB]
  /\ Vault.noteA ∈ List.filter (ownsOneOf Vault.cache ["#x"]) Vault.allNotes
  /\ (Vault.noteA ∉ List.filter (ownsOneOf Vault.cache ["#y"]) Vault.allNotes)
  /\ getFileListByQuery Vault.app [] = Ok Vault.allNotes.
Proof.
  destruct (getFileListByQuery_or_match Vault.allNotes Vault.cache)
    as (Hall & Hsome & Hx).
  destruct (Hsome "#x" ["#y"]) as (results & Hrun & -> & _).
  destruct (Hx Vault.noteA) as (_ & _ & _ & Hin & _ & Hout & _);
    [left|reflexivity|].
  split; [exact Hrun|]. split; [exact Hin|]. split; [exact Hout|exact Hall].
Defined.

Lemma updateMapToState_failure_leaves_view_witness :
  updateMapToState Vault.failingBuilder 0 true (view Vault.bothDrawn) =
  (Throw "buildMarkers failed", view Vault.bothDrawn).
Proof.
  apply (updateMapToState_failure_leaves_view Vault.failingBuilder 0 true
           (view Vault.bothDrawn) "buildMarkers failed").
  right. eexists. split; reflexivity.
Defined.

Lemma getFileListByQuery_untagged_witness :
  (exists results,
     getFileListByQuery Vault.app ["#x"; "#y"] = Ok results
     /\ Vault.noteUnindexed ∉ results)
  /\ (exists results,
        getFileListByQuery Vault.app ["#x"; "#y"] = Ok results
        /\ Vault.noteUntagged ∉ results)
  /\ (exists results,
        getFileListByQuery Vault.app [] = Ok results
        /\ Vault.noteUnindexed ∈ results /\ Vault.noteUntagged ∈ results).
Proof.
  destruct (getFileListByQuery_untagged Vault.allNotes Vault.cache
              Vault.noteUnindexed "#x" ["#y"]) as [Hout (r0 & Hall & Hin)];
    [left; reflexivity|].
  destruct (getFileListByQuery_untagged Vault.allNotes Vault.cache
              Vault.noteUntagged "#x" ["#y"]) as [Hout' (r0' & Hall' & Hin')];
    [right; right; reflexivity|].
  split; [exact Hout|]. split; [exact Hout'|].
  exists r0. split; [exact Hall|]. split.
  - apply Hin. by_computation.
  - assert (r0 = r0') as -> by congruence. apply Hin'. by_computation.
Defined.

Lemma autoFitMapToMarkers_nothing_drawn_witness :
  autoFitMapToMarkers (view Vault.start) = (Ok tt, view Vault.start)
  /\ exists v',
       updateMapToState_resume
         {| candidate := 0; autoFit := true; files := Vault.allNotes |}
         (Ok []) (view Vault.bothDrawn) = (Ok tt, v')
       /\ markers (display v') = []
       /\ count isFitBounds (callsSince (view Vault.bothDrawn) v') = 0
       /\ viewport (map (display v')) =
            At (DEFAULT_CENTER Vault.consts) (DEFAULT_ZOOM Vault.consts).
Proof.
  destruct autoFitMapToMarkers_nothing_drawn as [Hempty Hcommit].
  split; [apply Hempty; reflexivity|].
  destruct (Hcommit {| candidate := 0; autoFit := true;
                       files := Vault.allNotes |}
              (view Vault.bothDrawn)) as (v' & Hrun & _ & Hnone & Hfit & Hvp).
  - by_computation.
  - vm_compute. lia.
  - exists v'. split; [exact Hrun|]. split; [exact Hnone|].
    split; [exact Hfit|exact Hvp].
Defined.

(** The filter [#x] is requested with version 1 and, before its markers are
    built, no filter with version 2.  Whichever builder resolves first, in
    the end version 2 is committed and the markers of both notes are
    drawn. *)
Example latest_filter_wins_either_way :
  let firstThenSecond := Vault.built 0 (Vault.built 0 Vault.twoFilters) in
  let secondThenFirst := Vault.built 0 (Vault.built 1 Vault.twoFilters) in
  (fun p => (tags (objects (view Vault.twoFilters) (candidate p)), files p))
    <$> inflight Vault.twoFilters =
    [(["#x"], [Vault.noteA]); ([], Vault.allNotes)]
  /\ version (getState firstThenSecond) = 2
  /\ version (getState secondThenFirst) = 2
  /\ JsMap.keys (markers (display (view firstThenSecond))) = ["A"; "B"]
  /\ JsMap.keys (markers (display (view secondThenFirst))) = ["A"; "B"]
  /\ inflight firstThenSecond = [] /\ inflight secondThenFirst = [].
Proof. by vm_compute. Qed.

(** * Further properties of the query engine *)

Lemma pushMatching_all (app : App) (allFiles results : list TFile) :
  pushMatching app [] allFiles results = Ok (results ++ allFiles).
Proof.
  revert results. induction allFiles as [|f rest IH]; intros results.
  - cbn. by rewrite app_nil_r.
  - cbn [pushMatching]. change (fileMatches app [] f) with (Ok true).
    cbn [mbind Outcome_bind]. rewrite IH. by rewrite <- app_assoc.
Qed.

(** With no filter the tag cache is not consulted: every file of the vault
    is returned, whatever [getFileCache] would answer or throw. *)
Theorem getFileListByQuery_no_filter_skips_cache
    (app : App) (files : list TFile) :
  getFiles app = Ok files -> getFileListByQuery app [] = Ok files.
Proof.
  intros Hfiles. unfold getFileListByQuery. rewrite Hfiles.
  cbn [mbind Outcome_bind]. apply pushMatching_all.
Qed.

Lemma pushMatching_cache_throws (app : App) (t : string) (tags : list string)
    (before after : list TFile) (f : TFile) (e : string) :
  Forall (fun g => exists c, getFileCache app g = Ok c) before ->
  getFileCache app f = Throw e ->
  forall results,
    pushMatching app (t :: tags) (before ++ f :: after) results = Throw e.
Proof.
  intros Hbefore Hf. induction Hbefore as [|g before [c Hg] _ IH];
    intros results; cbn [List.app pushMatching].
  - unfold fileMatches. cbn [length Nat.ltb Nat.leb]. by rewrite Hf.
  - unfold fileMatches at 1. cbn [length Nat.ltb Nat.leb]. rewrite Hg.
    cbn [mbind Outcome_bind mret Outcome_ret]. apply IH.
Qed.

(** A failure of the host fails the whole query with the host's error and
    no partial result: a throwing [getFiles] for every filter, and, under a
    non-empty filter, the first throwing [getFileCache]. *)
Theorem getFileListByQuery_host_failure
    (app : App) (requested : list string) (e : string) :
  (getFiles app = Throw e \/
   exists before f after,
     requested <> []
     /\ getFiles app = Ok (before ++ f :: after)
     /\ Forall (fun g => exists c, getFileCache app g = Ok c) before
     /\ getFileCache app f = Throw e) ->
  getFileListByQuery app requested = Throw e.
Proof.
  intros [Hfiles|(before & f & after & Hne & Hfiles & Hbefore & Hf)];
    unfold getFileListByQuery; rewrite Hfiles; [done|].
  cbn [mbind Outcome_bind]. destruct requested as [|t tags]; [done|].
  by apply pushMatching_cache_throws.
Qed.

Lemma filter_sublist_impl {A} (p q : A -> bool) (l : list A) :
  (forall x, p x = true -> q x = true) ->
  List.filter p l `sublist_of` List.filter q l.
Proof.
  intros Himpl. induction l as [|x l IH]; [constructor|]. cbn.
  destruct (p x) eqn:Hp.
  - rewrite (Himpl x Hp). by constructor.
  - destruct (q x); [by constructor|done].
Qed.

Lemma filter_sublist_all {A} (p : A -> bool) (l : list A) :
  List.filter p l `sublist_of` l.
Proof.
  induction l as [|x l IH]; [constructor|]. cbn.
  destruct (p x); by constructor.
Qed.

(** A filtered result keeps the vault's order and grows with the filter:
    when every tag of a non-empty filter is also in a second filter, what
    the first returns is a sublist of what the second returns, which is a
    sublist of the vault.  So two filters with the same tags, in any order
    and with any repetitions, return the same files. *)
Theorem getFileListByQuery_grows_with_filter
    (files : list TFile) (cache : TFile -> option CachedMetadata)
    (t : string) (tags requested : list string) :
  (forall x, x ∈ t :: tags -> x ∈ requested) ->
  exists narrow wide,
    getFileListByQuery (host files cache) (t :: tags) = Ok narrow
    /\ getFileListByQuery (host files cache) requested = Ok wide
    /\ narrow `sublist_of` wide
    /\ wide `sublist_of` files
    /\ ((forall x, x ∈ requested -> x ∈ t :: tags) -> narrow = wide).
Proof.
  intros Hsub. destruct requested as [|t' tags'].
  { specialize (Hsub t). rewrite elem_of_nil in Hsub.
    exfalso. apply Hsub. left. }
  rewrite !getFileListByQuery_filtered. eexists _, _.
  split; [done|]. split; [done|].
  assert (forall r1 r2 : list string,
            (forall x, x ∈ r1 -> x ∈ r2) ->
            forall f, ownsOneOf cache r1 f = true ->
                      ownsOneOf cache r2 f = true) as Hmono.
  { intros r1 r2 Hr f. rewrite !ownsOneOf_spec.
    intros (own & Hown & Hin). exists own. auto. }
  split; [by apply filter_sublist_impl, Hmono|].
  split; [apply filter_sublist_all|].
  intros Hback. apply List.filter_ext. intros f.
  destruct (ownsOneOf cache (t :: tags) f) eqn:H1.
  - symmetry. by eapply Hmono.
  - destruct (ownsOneOf cache (t' :: tags') f) eqn:H2; [|done].
    rewrite (Hmono _ _ Hback f H2) in H1. done.
Qed.

(** * The text of the tag box *)

Lemma split_nonempty (sep : ascii) (s : string) : Js.split sep s <> [].
Proof.
  destruct s as [|c s]; cbn [Js.split]; [done|].
  destruct (decide (c = sep)); [done|]. by destruct (Js.split sep s).
Qed.

Lemma append_empty_l (y : string) : "" +:+ y = y.
Proof. reflexivity. Qed.

Lemma append_String (c : ascii) (x y : string) :
  String c x +:+ y = String c (x +:+ y).
Proof. reflexivity. Qed.

(** Splitting two strings glued with the separator. *)
Lemma split_glued (sep : ascii) (x y : string) :
  Js.split sep (x +:+ String sep y) = Js.split sep x ++ Js.split sep y.
Proof.
  induction x as [|c x IH];
    rewrite ?append_empty_l, ?append_String; cbn [Js.split].
  - by rewrite decide_True.
  - destruct (decide (c = sep)); [by rewrite IH|]. rewrite IH.
    pose proof (split_nonempty sep x). by destruct (Js.split sep x).
Qed.

Lemma filter_nonempty_app (l1 l2 : list string) :
  List.filter Js.nonempty (l1 ++ l2) =
  List.filter Js.nonempty l1 ++ List.filter Js.nonempty l2.
Proof. apply List.filter_app. Qed.

(** Reading back a joined list reads each element by itself. *)
Lemma parseTags_join (ts : list string) :
  parseTags (Js.join "," ts) = flat_map parseTags ts.
Proof.
  unfold parseTags. induction ts as [|t ts IH]; [done|].
  destruct ts as [|t' ts].
  - cbn [Js.join flat_map]. by rewrite app_nil_r.
  - change (Js.join "," (t :: t' :: ts))
      with (t +:+ String ","%char (Js.join "," (t' :: ts))).
    rewrite split_glued, filter_nonempty_app, IH. done.
Qed.

Lemma split_commaFree (t : string) :
  commaFree t = true -> Js.split ","%char t = [t].
Proof.
  induction t as [|c t IH]; cbn; [done|].
  destruct (decide (c = ","%char)); [done|]. intros Hfree. by rewrite IH.
Qed.

Lemma parseTags_plainTag (t : string) : plainTag t = true -> parseTags t = [t].
Proof.
  unfold plainTag, parseTags. intros [Hne Hfree]%andb_true_iff.
  rewrite split_commaFree by done. cbn [List.filter]. by rewrite Hne.
Qed.

Lemma flat_map_parseTags_plain (ts : list string) :
  forallb plainTag ts = true -> flat_map parseTags ts = ts.
Proof.
  induction ts as [|t ts IH]; [done|]. cbn [flat_map forallb].
  intros [Ht Hts]%andb_true_iff. by rewrite parseTags_plainTag, IH.
Qed.

Lemma filter_nonempty_plain (ts : list string) :
  forallb plainTag ts = true -> List.filter Js.nonempty ts = ts.
Proof.
  induction ts as [|t ts IH]; [done|]. cbn [List.filter forallb].
  unfold plainTag at 1.
  intros [[Hne _]%andb_true_iff Hts]%andb_true_iff. by rewrite Hne, IH.
Qed.

Lemma split_tokens_commaFree (text : string) :
  forallb commaFree (Js.split ","%char text) = true.
Proof.
  induction text as [|c text IH]; cbn [Js.split]; [done|].
  destruct (decide (c = ","%char)) as [->|Hne]; [done|].
  pose proof (split_nonempty ","%char text).
  destruct (Js.split ","%char text) as [|tok toks]; [done|].
  cbn [forallb commaFree] in *. by rewrite decide_False.
Qed.

Lemma parseTags_tokens_plain (text : string) :
  forallb plainTag (parseTags text) = true.
Proof.
  unfold parseTags. pose proof (split_tokens_commaFree text) as Hfree.
  induction (Js.split ","%char text) as [|tok toks IH]; [done|].
  cbn [forallb] in Hfree. apply andb_true_iff in Hfree as [Htok Htoks].
  cbn [List.filter].
  destruct (Js.nonempty tok) eqn:Hne; [|by apply IH].
  cbn [forallb]. unfold plainTag at 1. by rewrite Hne, Htok, IH.
Qed.

Lemma nonempty_false (t : string) : Js.nonempty t = false -> t = "".
Proof. by destruct t. Qed.

(** The text shown for a list of tags reads back as the tags, each read by
    itself: tags that are non-empty and hold no comma come back as they
    are, empty ones are dropped and one holding commas comes back as
    several.  What is read off a text is always made of non-empty
    comma-free tags, so it is shown and read back unchanged. *)
Theorem parseTags_showTags (ts : list string) :
  parseTags (showTags ts) = flat_map parseTags ts
  /\ (forallb plainTag ts = true -> parseTags (showTags ts) = ts)
  /\ (forall text, parseTags (showTags (parseTags text)) = parseTags text).
Proof.
  assert (parseTags (showTags ts) = flat_map parseTags ts) as Hlaw.
  { unfold showTags. rewrite parseTags_join.
    induction ts as [|t ts IH]; [done|]. cbn [List.filter flat_map].
    destruct (Js.nonempty t) eqn:Hne; cbn [flat_map]; rewrite IH; [done|].
    by rewrite (nonempty_false t Hne). }
  split; [exact Hlaw|]. split.
  - intros Hplain. by rewrite Hlaw, flat_map_parseTags_plain.
  - intros text. unfold showTags.
    rewrite filter_nonempty_plain by apply parseTags_tokens_plain.
    rewrite parseTags_join. apply flat_map_parseTags_plain,
      parseTags_tokens_plain.
Qed.

(** * Further properties of the reconciler *)

Lemma set_absent (k : string) (e : FileMarker) (m : MarkersMap) :
  k ∉ JsMap.keys m -> JsMap.set k e m = m ++ [(k, e)].
Proof.
  unfold JsMap.keys. induction m as [|[k' e'] m IH]; [done|].
  cbn [fmap list_fmap fst JsMap.set]. intros [Hne Hrest]%not_elem_of_cons.
  rewrite decide_False by congruence. by rewrite IH.
Qed.

Lemma delete_absent (k : string) (m : MarkersMap) :
  k ∉ JsMap.keys m -> JsMap.delete k m = m.
Proof.
  unfold JsMap.keys. induction m as [|[k' e'] m IH]; [done|].
  cbn [fmap list_fmap fst JsMap.delete]. intros [Hne Hrest]%not_elem_of_cons.
  rewrite decide_False by congruence. by rewrite IH.
Qed.

(** With distinct ids that the accumulated map does not hold yet, the first
    loop appends the ids in the order of the list. *)
Lemma forEachNew_keys (newMarkers : list FileMarker) :
  forall (acc : MarkersMap) (v : MapView) (acc' : MarkersMap) (v' : MapView),
    NoDup (ids newMarkers) ->
    (forall k, k ∈ ids newMarkers -> k ∉ JsMap.keys acc) ->
    forEachNew newMarkers acc v = (Ok acc', v') ->
    JsMap.keys acc' = JsMap.keys acc ++ ids newMarkers.
Proof.
  induction newMarkers as [|m rest IH]; intros acc v acc' v' Hnd Hfresh Hrun.
  - cbn in Hrun. injection Hrun as <- <-. unfold ids. cbn.
    by rewrite app_nil_r.
  - rewrite forEachNew_cons in Hrun. unfold ids in *.
    cbn [fmap list_fmap] in *. apply NoDup_cons in Hnd as [Hm Hnd].
    assert (id m ∉ JsMap.keys acc) as Hacc by (apply Hfresh; left).
    assert (forall e,
              JsMap.keys (JsMap.set (id m) e acc) = JsMap.keys acc ++ [id m])
      as Hset.
    { intros e. rewrite set_absent by done. unfold JsMap.keys.
      by rewrite fmap_app. }
    assert (forall e k, k ∈ id <$> rest ->
                        k ∉ JsMap.keys (JsMap.set (id m) e acc)) as Hfresh'.
    { intros e k Hk. rewrite Hset. rewrite not_elem_of_app. split.
      - apply Hfresh. by right.
      - rewrite list_elem_of_singleton. by intros ->. }
    destruct (JsMap.get (id m) (markers (display v))) as [e|];
      apply IH in Hrun; try done; try apply Hfresh';
      rewrite Hrun, Hset, <- app_assoc; done.
Qed.

(** When the new list is, id by id, what is drawn, the first loop moves
    every entry over and creates nothing. *)
Lemma forEachNew_all_kept (drawn : MarkersMap) :
  forall (newMarkers : list FileMarker) (acc : MarkersMap) (v : MapView),
    JsMap.wf drawn ->
    markers (display v) = drawn ->
    ids newMarkers = JsMap.keys drawn ->
    (forall k, k ∈ JsMap.keys drawn -> k ∉ JsMap.keys acc) ->
    forEachNew newMarkers acc v =
    (Ok (acc ++ drawn), withDisplay (withMarkers [] (display v)) v).
Proof.
  induction drawn as [|[k e] drawn IH];
    intros newMarkers acc v Hwf Hdrawn Hids Hfresh.
  - destruct newMarkers; [|done]. cbn. rewrite app_nil_r.
    destruct v as [? ? ? ? ? ? ? [? ms ?]]. cbn in Hdrawn. by subst ms.
  - destruct newMarkers as [|m rest]; [done|].
    unfold ids, JsMap.keys in Hids. cbn in Hids.
    injection Hids as Hk Hids. rewrite forEachNew_cons, Hdrawn, Hk.
    cbn [JsMap.get JsMap.delete]. rewrite !decide_True by done.
    unfold JsMap.wf, JsMap.keys in Hwf. cbn in Hwf.
    apply NoDup_cons in Hwf as [Hnotin Hwf].
    rewrite delete_absent by done.
    rewrite IH; try done.
    + rewrite set_absent by (apply Hfresh; left).
      by rewrite <- app_assoc.
    + intros k' Hk'. rewrite set_absent by (apply Hfresh; left).
      unfold JsMap.keys. rewrite fmap_app, not_elem_of_app. split.
      * apply Hfresh. by right.
      * cbn. rewrite list_elem_of_singleton. by intros ->.
Qed.

(** Reconciling twice with the same list of distinct ids: the second pass
    makes no call to the map widget and leaves [display.markers], and the
    whole view, as the first pass left them. *)
Theorem updateMapMarkers_twice
    (v : MapView) (newMarkers : list FileMarker) :
  drawn_ok (display v) ->
  NoDup (ids newMarkers) ->
  exists v',
    updateMapMarkers newMarkers v = (Ok tt, v')
    /\ updateMapMarkers newMarkers v' = (Ok tt, v')
    /\ callsSince v' (updateMapMarkers newMarkers v').2 = [].
Proof.
  intros Hok Hnd.
  destruct (updateMapMarkers_run newMarkers v Hok)
    as (result & news & Hpass & Hloop & Hseq & Hsub).
  exists (afterPass v news
            (drawnHandles (unclaimed newMarkers (markers (display v))))
            result).
  split; [exact Hpass|].
  pose proof (forEachNew_keys newMarkers [] v _ _ Hnd
                (fun k _ => not_elem_of_nil k) Hloop) as Hkeys.
  pose proof (pass_drawn_ok v newMarkers result news
                (display (afterPass v news
                   (drawnHandles (unclaimed newMarkers (markers (display v))))
                   result))
                Hok Hloop Hseq Hsub eq_refl eq_refl) as Hok'.
  assert (updateMapMarkers newMarkers
            (afterPass v news
               (drawnHandles (unclaimed newMarkers (markers (display v))))
               result) =
          (Ok tt,
           afterPass v news
             (drawnHandles (unclaimed newMarkers (markers (display v))))
             result)) as Hagain.
  { unfold updateMapMarkers. act_run.
    rewrite (forEachNew_all_kept result);
      [|apply Hok'|reflexivity|by rewrite Hkeys
       |intros k _; apply not_elem_of_nil].
    act_run. cbn [removeEach]. act_run. done. }
  split; [exact Hagain|]. rewrite Hagain. unfold callsSince. cbn [snd].
  by rewrite drop_all.
Qed.

Lemma absentIn_delete (k : string) (drawn : MarkersMap) (marker : FileMarker) :
  k <> id marker ->
  absentIn (JsMap.delete k drawn) marker = absentIn drawn marker.
Proof. intros Hne. unfold absentIn. by rewrite get_delete_ne. Qed.

(** With distinct ids, the first loop creates one marker object for each
    new marker whose id is not drawn, in the order of the list, and draws
    that marker with the object made for it. *)
Lemma forEachNew_creates (newMarkers : list FileMarker) :
  forall (acc : MarkersMap) (v : MapView),
    NoDup (ids newMarkers) ->
    exists (acc' : MarkersMap) (news : list (Marker * FileMarker)),
      forEachNew newMarkers acc v =
        (Ok acc', afterFirstLoop v news
                    (unclaimed newMarkers (markers (display v))))
      /\ news.*1 = seq (created (map (display v))) (length news)
      /\ news.*2 = List.filter (absentIn (markers (display v))) newMarkers
      /\ forall h m, (h, m) ∈ news ->
           JsMap.get (id m) acc' = Some (withMapMarker h m).
Proof.
  induction newMarkers as [|m rest IH]; intros acc v Hnd.
  - exists acc, []. rewrite unclaimed_nil, afterFirstLoop_nil.
    repeat split. intros h m Hin. by apply elem_of_nil in Hin.
  - unfold ids in Hnd. cbn [fmap list_fmap] in Hnd.
    apply NoDup_cons in Hnd as [Hm Hnd]. fold (ids rest) in Hm, Hnd.
    rewrite forEachNew_cons. cbn [List.filter]. unfold absentIn at 1.
    destruct (JsMap.get (id m) (markers (display v))) as [e|] eqn:Hget.
    + edestruct (IH (JsMap.set (id m) e acc)) as (acc' & news & Hrun & Hseq & Hwho & Hdrawn);
        [exact Hnd|].
      exists acc', news. rewrite Hrun, afterFirstLoop_keep, unclaimed_cons.
      split; [done|]. split; [exact Hseq|]. split; [|exact Hdrawn].
      rewrite Hwho. cbn [display markers withDisplay withMarkers].
      apply List.filter_ext_in. intros m' Hm'. apply absentIn_delete.
      intros Heq. apply Hm. rewrite Heq. apply (list_elem_of_fmap_2 id).
      by apply list_elem_of_In.
    + edestruct (IH (JsMap.set (id m)
                       (withMapMarker (created (map (display v))) m) acc))
        as (acc' & news & Hrun & Hseq & Hwho & Hdrawn); [exact Hnd|].
      exists acc', ((created (map (display v)), m) :: news).
      rewrite Hrun, afterFirstLoop_create, unclaimed_absent by done.
      split; [done|].
      cbn [display markers map created withDisplay withMap] in Hseq, Hwho.
      split; [cbn; by rewrite Hseq|]. split; [cbn; by rewrite Hwho|].
      intros h m' [[= -> ->]|Hin]%elem_of_cons; [|by apply Hdrawn].
      apply forEachNew_result in Hrun as (_ & _ & Hother & _).
      rewrite Hother by done. apply get_set_eq.
Qed.

Lemma count_isAddOf_once (h : Marker) (news : list (Marker * FileMarker)) :
  NoDup news.*1 -> h ∈ news.*1 -> count (isAddOf h) (addCalls news) = 1.
Proof.
  unfold count, addCalls.
  induction news as [|[h' m] news IH]; cbn; intros Hnd Hin.
  - by apply elem_of_nil in Hin.
  - apply NoDup_cons in Hnd as [Hfresh Hnd].
    apply elem_of_cons in Hin as [->|Hin].
    + rewrite bool_decide_eq_true_2 by done. cbn. f_equal.
      by apply (count_isAddOf_absent h' news).
    + rewrite bool_decide_eq_false_2; [by apply IH|]. by intros ->.
Qed.

Lemma count_isAdd_adds (news : list (Marker * FileMarker)) :
  count isAdd (addCalls news) = length news.
Proof. unfold count, addCalls. induction news; cbn; [done|]. by f_equal. Qed.

Lemma count_isAdd_removes (removed : list Marker) :
  count isAdd (RemoveMarker <$> removed) = 0.
Proof. unfold count. by induction removed. Qed.

(** With distinct ids, a pass creates exactly one marker object for each
    new marker whose id is not drawn: the marker is drawn with that object,
    which did not exist before and is put on the map once, at the marker's
    location and with its icon and the name of its file.  Nothing else is
    created. *)
Theorem updateMapMarkers_creates_absent
    (v : MapView) (newMarkers : list FileMarker) :
  drawn_ok (display v) ->
  NoDup (ids newMarkers) ->
  exists v',
    updateMapMarkers newMarkers v = (Ok tt, v')
    /\ count isAdd (callsSince v v') =
       length (List.filter (absentIn (markers (display v))) newMarkers)
    /\ created (map (display v')) =
       created (map (display v)) +
       length (List.filter (absentIn (markers (display v))) newMarkers)
    /\ forall marker,
         marker ∈ newMarkers ->
         absentIn (markers (display v)) marker = true ->
         exists h,
           JsMap.get (id marker) (markers (display v')) =
             Some (withMapMarker h marker)
           /\ created (map (display v)) <= h < created (map (display v'))
           /\ count (isAddOf h) (callsSince v v') = 1
           /\ AddMarker h (location marker) (icon marker)
                (name (file marker)) ∈ callsSince v v'.
Proof.
  intros Hok Hnd.
  destruct (forEachNew_creates newMarkers [] v Hnd)
    as (result & news & Hloop & Hseq & Hwho & Hdrawn).
  exists (afterPass v news
            (drawnHandles (unclaimed newMarkers (markers (display v))))
            result).
  assert (length news =
          length (List.filter (absentIn (markers (display v))) newMarkers))
    as Hlen by (by rewrite <- Hwho, length_fmap).
  split; [|split; [|split]].
  - unfold updateMapMarkers. act_run. rewrite Hloop. act_run.
    rewrite removeEach_run.
    + unfold afterPass, afterFirstLoop, withDisplay, withMap, drawnHandles,
        JsMap.values. cbn. by rewrite <- app_assoc.
    + cbn. eapply Forall_submseteq; [|apply Hok].
      apply sublist_submseteq, fmap_sublist, unclaimed_sublist.
  - rewrite callsSince_afterPass, count_app, count_isAdd_adds,
      count_isAdd_removes. lia.
  - cbn. lia.
  - intros marker Hin Habsent.
    assert (marker ∈ news.*2) as Hnew.
    { rewrite Hwho. apply list_elem_of_In, filter_In. split; [|done].
      by apply list_elem_of_In. }
    apply list_elem_of_fmap in Hnew as ([h m] & -> & Hnew).
    exists h. cbn [snd].
    assert (h ∈ news.*1) as Hh by (by apply (list_elem_of_fmap_2 fst) in Hnew).
    split; [by apply Hdrawn|]. split.
    + cbn. rewrite Hseq in Hh. apply elem_of_seq in Hh. lia.
    + rewrite callsSince_afterPass, count_app, count_isAddOf_removes.
      split.
      * rewrite count_isAddOf_once; [done| |done].
        rewrite Hseq. apply NoDup_seq.
      * apply elem_of_app. left. unfold addCalls.
        by apply (list_elem_of_fmap_2'
                    (fun hm => AddMarker hm.1 (location hm.2) (icon hm.2)
                                 (name (file hm.2))) _ (h, m)).
Qed.
